(** * DOM utilities of [components/global/dom.js]

    A shallow embedding of the helpers exported by [dom.js] together with
    the part of the browser they talk to: the node tree (parent links and
    [Node.contains]), the object heap on which rectangles are allocated,
    [String.prototype.split] on the regular expression [/\s+/], class-list
    handles, and the per-target event listener lists behind
    [addEventListener] / [removeEventListener]. *)

From Stdlib Require Import QArith.
From stdpp Require Import gmap list strings.

Close Scope Q_scope.

(** ** JavaScript values used by the module *)

(** A JavaScript number as far as this module observes it: the helpers only
    pass numbers through and test them for truthiness. *)
Inductive number : Type :=
  | NaN
  | Num (q : Q).

Definition number_truthy (x : number) : bool :=
  match x with
  | NaN => false
  | Num q => negb (Qeq_bool q 0)
  end.

Inductive error : Type :=
  | TypeError
  | SyntaxError
  | InvalidCharacterError.

(** Completion of a call: a returned value or a thrown exception. *)
Inductive result (A : Type) : Type :=
  | Ok (a : A)
  | Throw (e : error).
Arguments Ok {A} a.
Arguments Throw {A} e.

#[global] Instance result_ret : MRet result := λ A a, Ok a.
#[global] Instance result_bind : MBind result := λ A B k r,
  match r with
  | Ok a => k a
  | Throw e => Throw e
  end.

(** ** The node tree *)

Inductive nodeKind : Type :=
  | DocumentNode
  | ElementNode
  | TextNode
  | CommentNode.

(** A DOM node as the module sees it: an identity, a node type and the
    [parentNode] property, which is another node or [null]. *)
#[warnings="-register-all"]
Inductive node : Type :=
  Node { node_id : nat; nodeType : nodeKind; parentNode : option node }.

#[global] Instance nodeKind_eq_dec : EqDecision nodeKind.
Proof. solve_decision. Defined.

(** [===] on nodes. *)
#[global] Instance node_eq_dec : EqDecision node.
Proof.
  unfold EqDecision, Decision.
  fix IH 1. intros [i k p] [j l q].
  destruct (decide (i = j)) as [->|Hi]; [|right; congruence].
  destruct (decide (k = l)) as [->|Hk]; [|right; congruence].
  destruct p as [p|], q as [q|]; try (right; congruence).
  - destruct (IH p q) as [->|Hp]; [left; reflexivity|right; congruence].
  - left; reflexivity.
Defined.

(** A selection or text range; only its identity matters here. *)
Record range : Type := Range { range_id : nat }.

(** The argument of [isMounted] and [getRect]: a [Node], a [Range], or any
    other value (null, undefined, a plain object). *)
Inductive value : Type :=
  | VNode (n : node)
  | VRange (r : range)
  | VOther.

Record rect : Type := Rect {
  top : number; right : number; bottom : number;
  left : number; width : number; height : number
}.

(** The host environment: [window] and [document]. *)
Record host : Type := Host {
  document : node;
  documentElement : option node;      (* document.documentElement, may be null *)
  body : option node;                 (* document.body, may be null *)
  scrollTop : node → number;
  scrollLeft : node → number;
  devicePixelRatio : option number;   (* None: no such property in window *)
  innerHeight : number;
  elementRect : node → rect;          (* Element.getBoundingClientRect *)
  rangeRect : range → rect            (* Range.getBoundingClientRect *)
}.

(** [this.contains(other)] for a node [other]: [other] is [this] or has
    [this] among its ancestors. *)
Fixpoint contains (this other : node) : bool :=
  bool_decide (other = this) ||
  match other with
  | Node _ _ (Some p) => contains this p
  | Node _ _ None => false
  end.

(** [this.contains(arg)] where the argument may be [null]. *)
Definition contains_arg (this : node) (arg : option node) : bool :=
  match arg with
  | Some other => contains this other
  | None => false
  end.

(** ** isMounted *)

Definition isMounted (h : host) (v : value) : result bool :=
  match v with
  | VNode n =>
      if decide (n = document h) then Ok true
      else
        (* node instanceof Node && document.documentElement.contains(...) *)
        match documentElement h with
        | Some root => Ok (contains_arg root (parentNode n))
        | None => Throw TypeError
        end
  | VRange _ | VOther => Ok false
  end.

(** [n] is [root] or lies below it: zero or more parent links lead from
    [n] to [root]. *)
Inductive inclusiveDescendant (root : node) : node → Prop :=
  | descendant_self : inclusiveDescendant root root
  | descendant_parent n p :
      parentNode n = Some p → inclusiveDescendant root p →
      inclusiveDescendant root n.

(** The parent chain of [n] is contained in [root]: [n] has a parent, and
    that parent is [root] or lies below it. *)
Definition parentChainWithin (root n : node) : Prop :=
  ∃ p, parentNode n = Some p ∧ inclusiveDescendant root p.

(** [n] is reached from [root] by following one or more parent links
    from [n]. *)
Inductive reachableFrom (root : node) : node → Prop :=
  | reach_child n : parentNode n = Some root → reachableFrom root n
  | reach_below n p :
      parentNode n = Some p → reachableFrom root p → reachableFrom root n.

(** ** getRect *)

(** Rectangle objects live on a heap, so that object identity is visible. *)
Definition rectStub : nat := 0.
Definition rectStub_init : rect :=
  Rect (Num 0) (Num 0) (Num 0) (Num 0) (Num 0) (Num 0).

(** The heap right after the module has been loaded. *)
Definition module_heap : gmap nat rect := {[ rectStub := rectStub_init ]}.

(** Creation of a new object with the given contents. *)
Definition alloc (o : rect) (σ : gmap nat rect) : nat * gmap nat rect :=
  let l := fresh (dom σ) in (l, <[l := o]> σ).

Definition isRange (v : value) : bool :=
  match v with VRange _ => true | _ => false end.

(** [node.getBoundingClientRect()]: only elements and ranges have the
    method. *)
Definition call_getBoundingClientRect (h : host) (v : value) : result rect :=
  match v with
  | VRange r => Ok (rangeRect h r)
  | VNode n =>
      match nodeType n with
      | ElementNode => Ok (elementRect h n)
      | _ => Throw TypeError
      end
  | VOther => Throw TypeError
  end.

Definition getRect (h : host) (v : value) (σ : gmap nat rect)
  : result (nat * gmap nat rect) :=
  c ← (if isRange v then Ok true else isMounted h v);
  if (c : bool) then
    r ← call_getBoundingClientRect h v;
    Ok (alloc (Rect (top r) (right r) (bottom r) (left r) (width r) (height r)) σ)
  else
    (* Object.assign({}, rectStub) *)
    match σ !! rectStub with
    | Some stub => Ok (alloc stub σ)
    | None => Throw TypeError
    end.

(** ** Window and document accessors *)

Definition getPixelRatio (h : host) : number :=
  match devicePixelRatio h with
  | Some r => r
  | None => Num 1
  end.

Definition getWindowHeight (h : host) : number := innerHeight h.

(** [(document.documentElement && document.documentElement.scrollTop) ||
    document.body.scrollTop]: the left operand is [null] or a number, and
    the right operand is only evaluated when the left one is falsy. *)
Definition getDocumentScrollTop (h : host) : result number :=
  match documentElement h with
  | Some root =>
      if number_truthy (scrollTop h root) then Ok (scrollTop h root)
      else match body h with
           | Some b => Ok (scrollTop h b)
           | None => Throw TypeError
           end
  | None =>
      match body h with
      | Some b => Ok (scrollTop h b)
      | None => Throw TypeError
      end
  end.

Definition getDocumentScrollLeft (h : host) : result number :=
  match documentElement h with
  | Some root =>
      if number_truthy (scrollLeft h root) then Ok (scrollLeft h root)
      else match body h with
           | Some b => Ok (scrollLeft h b)
           | None => Throw TypeError
           end
  | None =>
      match body h with
      | Some b => Ok (scrollLeft h b)
      | None => Throw TypeError
      end
  end.

(** ** Class-list helpers *)

(** A JavaScript string is a sequence of UTF-16 code units. *)
Definition jsstring : Type := list N.

(** The code units of an ASCII literal. *)
Definition js (s : string) : jsstring :=
  Ascii.N_of_ascii <$> String.list_ascii_of_string s.

(** The characters matched by [\s]: the white space and line terminator
    code points of ECMAScript. *)
Definition isWhiteSpace (c : N) : bool :=
  bool_decide (c ∈ [9; 10; 11; 12; 13; 32; 160; 5760; 8232; 8233; 8239;
                    8287; 12288; 65279]%N)
  || ((8192 <=? c) && (c <=? 8202))%N.

(** [s.split(/\s+/g)]. The scan keeps the piece read so far in [cur];
    a maximal run of white space closes the current piece once, and the end
    of the string closes the last piece, so that leading and trailing white
    space (and the empty string) give empty pieces, as in JavaScript. *)
Fixpoint split_go (s : jsstring) (cur : jsstring) (inSep : bool)
  : list jsstring :=
  match s with
  | [] => [cur]
  | c :: s' =>
      if isWhiteSpace c then
        if inSep then split_go s' [] true
        else cur :: split_go s' [] true
      else split_go s' (cur ++ [c]) false
  end.

Definition split_whitespace (s : jsstring) : list jsstring :=
  split_go s [] false.

(** [Array.prototype.forEach] with a callback that may throw. *)
Fixpoint forEach {A S : Type} (f : A → S → result S) (l : list A) (s : S)
  : result S :=
  match l with
  | [] => Ok s
  | x :: l' => s' ← f x s; forEach f l' s'
  end.

(** A class-list handle over a state [S]: the methods it has, by property
    name; a method takes its argument list. *)
Definition classListHandle (S : Type) : Type :=
  string → option (list jsstring → S → result S).

(** [classList[method](args)] *)
Definition call_method {S : Type} (classList : classListHandle S)
    (method : string) (args : list jsstring) (s : S) : result S :=
  match classList method with
  | Some f => f args s
  | None => Throw TypeError
  end.

(** [classes] is [None] when the argument is [undefined]; the default
    parameter value is the empty string. *)
Definition applyMethodToClasses {S : Type} (method : string)
    (classList : classListHandle S) (classes : option jsstring) (s : S)
  : result S :=
  let classes := default [] classes in
  forEach (λ className, call_method classList method [className])
          (filter (λ className : jsstring, className ≠ [])
                  (split_whitespace classes))
          s.

Definition addClasses {S : Type} := @applyMethodToClasses S "add".
Definition removeClasses {S : Type} := @applyMethodToClasses S "remove".

(** The tokens of a class spec, as the specification describes them: the
    maximal runs of characters that are not white space, in order. *)
Inductive Tokens : jsstring → list jsstring → Prop :=
  | Tokens_end : Tokens [] []
  | Tokens_space c s ts :
      isWhiteSpace c = true → Tokens s ts → Tokens (c :: s) ts
  | Tokens_word t s ts :
      t ≠ [] → Forall (λ c, isWhiteSpace c = false) t →
      s = [] ∨ (∃ c s', s = c :: s' ∧ isWhiteSpace c = true) →
      Tokens s ts → Tokens (t ++ s) (t :: ts).

(** The platform's [DOMTokenList]: an ordered set of tokens. [add] and
    [remove] reject empty tokens and tokens with ASCII white space. *)
Definition isAsciiWhiteSpace (c : N) : bool :=
  bool_decide (c ∈ [9; 10; 12; 13; 32]%N).

Fixpoint validateTokens (tokens : list jsstring) : result unit :=
  match tokens with
  | [] => Ok ()
  | t :: ts =>
      if decide (t = []) then Throw SyntaxError
      else if existsb isAsciiWhiteSpace t then Throw InvalidCharacterError
      else validateTokens ts
  end.

Definition tokenList_add (tokens : list jsstring) (set : list jsstring)
  : list jsstring :=
  foldl (λ acc t, if decide (t ∈ acc) then acc else acc ++ [t]) set tokens.

Definition tokenList_remove (tokens : list jsstring) (set : list jsstring)
  : list jsstring :=
  foldl (λ acc t, filter (λ x, x ≠ t) acc) set tokens.

Definition DOMTokenList : classListHandle (list jsstring) :=
  λ method,
    if decide (method = "add") then
      Some (λ tokens set, _ ← validateTokens tokens; Ok (tokenList_add tokens set))
    else if decide (method = "remove") then
      Some (λ tokens set, _ ← validateTokens tokens; Ok (tokenList_remove tokens set))
    else None.

(** A handle that only records the calls it receives. *)
Definition recorder : classListHandle (list (string * list jsstring)) :=
  λ method, Some (λ args log, Ok (log ++ [(method, args)])).

(** ** preventDefault *)

(** An event-like value over a world [S]: its [preventDefault] property is
    a method or is missing. *)
Record eventLike (S : Type) : Type := EventLike {
  ev_preventDefault : option (S → result S)
}.
Arguments EventLike {S} _.
Arguments ev_preventDefault {S} _.

Definition preventDefault {S : Type} (e : eventLike S) (s : S) : result S :=
  match ev_preventDefault e with
  | Some method => method s
  | None => Ok s
  end.

(** A native event: calling [preventDefault] cancels a cancelable event;
    [ne_calls] counts the invocations. *)
Record nativeEvent : Type := NativeEvent {
  ne_cancelable : bool;
  ne_defaultPrevented : bool;
  ne_calls : nat
}.

Definition nativePreventDefault (s : nativeEvent) : result nativeEvent :=
  Ok (NativeEvent (ne_cancelable s)
                  (ne_defaultPrevented s || ne_cancelable s)
                  (S (ne_calls s))).

Definition nativeEventObject : eventLike nativeEvent :=
  EventLike (Some nativePreventDefault).

(** The plain object [{}]. *)
Definition plainObject {S : Type} : eventLike S := EventLike None.

(** ** setRootStyleProperties *)

(** [properties] holds the entries of the argument object as
    [Object.entries] lists them, and is [None] when the argument is left
    out; [setProperty] is [style.setProperty] of the given element, over a
    world [S]. The root element's style is read before the entries are
    walked. *)
Definition setRootStyleProperties {S : Type} (h : host)
    (setProperty : node → string → string → S → result S)
    (properties : option (list (string * string))) (s : S) : result S :=
  match documentElement h with
  | None => Throw TypeError
  | Some root =>
      forEach (λ '(key, value), setProperty root key value)
              (default [] properties) s
  end.

(** An inline style holding custom properties: setting the empty string
    removes the property, and a property that is not set reads as the empty
    string. *)
Definition inlineStyle_setProperty (el : node) (key value : string)
    (style : gmap string string) : result (gmap string string) :=
  Ok (if decide (value = "") then delete key style
      else <[key := value]> style).

Definition inlineStyle_getPropertyValue (key : string)
    (style : gmap string string) : string :=
  default "" (style !! key).

(** ** The listener registry *)

Module Listeners.

(** Event targets and handler functions are compared by identity. *)
Definition element : Type := nat.
Definition handler : Type := nat.

(** An entry of a target's event listener list. *)
Record listener : Type := Listener {
  l_type : string;
  l_callback : handler;
  l_capture : bool
}.

#[global] Instance listener_eq_dec : EqDecision listener.
Proof. solve_decision. Defined.

(** The closure [() => el.removeEventListener(event, handler, useCapture)]
    made by [add]: a function object with its own identity and the
    variables it has captured. [useCapture] is [None] when the argument
    was left out. *)
Record dispatchFn : Type := DispatchFn {
  fn_id : nat;
  fn_el : element;
  fn_event : string;
  fn_handler : handler;
  fn_useCapture : option bool
}.

#[global] Instance dispatchFn_eq_dec : EqDecision dispatchFn.
Proof. solve_decision. Defined.

(** The calls made to the platform, in order. *)
Inductive platformCall : Type :=
  | AddEventListener (el : element) (event : string) (h : handler)
                     (useCapture : option bool)
  | RemoveEventListener (el : element) (event : string) (h : handler)
                        (useCapture : option bool).

(** The platform's listener lists, the entries of the [_all] set in
    insertion order, the next function identity, and the log of platform
    calls. *)
Record state : Type := State {
  targets : gmap element (list listener);
  _all : list dispatchFn;
  next_fn : nat;
  calls : list platformCall
}.

(** *** The platform *)

Definition listenersOf (tg : gmap element (list listener)) (el : element)
  : list listener :=
  default [] (tg !! el).

(** The listener named by the arguments; a missing capture flag is
    [false]. *)
Definition listenerOf (event : string) (h : handler)
    (useCapture : option bool) : listener :=
  Listener event h (default false useCapture).

(** [el.addEventListener(event, h, useCapture)]: appended unless the list
    already has a listener with this type, callback and capture flag. *)
Definition addEventListener (el : element) (event : string) (h : handler)
    (useCapture : option bool) (tg : gmap element (list listener))
  : gmap element (list listener) :=
  let l := listenerOf event h useCapture in
  if decide (l ∈ listenersOf tg el) then tg
  else <[el := listenersOf tg el ++ [l]]> tg.

(** [el.removeEventListener(event, h, useCapture)] *)
Definition removeEventListener (el : element) (event : string)
    (h : handler) (useCapture : option bool)
    (tg : gmap element (list listener)) : gmap element (list listener) :=
  let l := listenerOf event h useCapture in
  alter (filter (λ x, x ≠ l)) el tg.

(** The handlers run when an event of type [event] is dispatched at
    [el], in order. *)
Definition dispatchEvent (tg : gmap element (list listener))
    (el : element) (event : string) : list handler :=
  l_callback <$> filter (λ x, l_type x = event) (listenersOf tg el).

(** The listener that the action [fn] removes from [fn_el fn]. *)
Definition subscription (fn : dispatchFn) : listener :=
  listenerOf (fn_event fn) (fn_handler fn) (fn_useCapture fn).

(** *** The [Set] in [_all]: function objects compared by identity *)

Definition set_has (fn : dispatchFn) (s : list dispatchFn) : bool :=
  bool_decide (fn_id fn ∈ fn_id <$> s).

Definition set_add (fn : dispatchFn) (s : list dispatchFn)
  : list dispatchFn :=
  if set_has fn s then s else s ++ [fn].

Definition set_delete (fn : dispatchFn) (s : list dispatchFn)
  : list dispatchFn :=
  filter (λ x, fn_id x ≠ fn_id fn) s.

(** *** The class *)

(** [new Listeners()] on a platform with the listener lists [tg]. *)
Definition new (tg : gmap element (list listener)) : state :=
  State tg [] 0 [].

Definition add (el : element) (event : string) (h : handler)
    (useCapture : option bool) (st : state) : dispatchFn * state :=
  let tg := addEventListener el event h useCapture (targets st) in
  let dispatchFn := DispatchFn (next_fn st) el event h useCapture in
  (dispatchFn,
   State tg
         (set_add dispatchFn (_all st))
         (S (next_fn st))
         (calls st ++ [AddEventListener el event h useCapture])).

(** The call [fn()] of an unsubscribe action. *)
Definition call (fn : dispatchFn) (st : state) : state :=
  State (removeEventListener (fn_el fn) (fn_event fn) (fn_handler fn)
                             (fn_useCapture fn) (targets st))
        (_all st)
        (next_fn st)
        (calls st ++ [RemoveEventListener (fn_el fn) (fn_event fn)
                                          (fn_handler fn) (fn_useCapture fn)]).

Definition remove (fn : dispatchFn) (st : state) : state :=
  let st := call fn st in
  State (targets st) (set_delete fn (_all st)) (next_fn st) (calls st).

(** [this._all.forEach(fn => this.remove(fn))]: the entries are visited
    in insertion order, and an entry deleted before its turn is
    skipped. *)
Definition removeAll (st : state) : state :=
  foldl (λ st fn, if set_has fn (_all st) then remove fn st else st)
        st (_all st).

(** *** Notions of the specification *)

(** The subscription an unsubscribe action reverses is still in the
    listener list of its target. *)
Definition active (st : state) (fn : dispatchFn) : Prop :=
  subscription fn ∈ listenersOf (targets st) (fn_el fn).

(** No tracked action is stale. *)
Definition no_stale_entry (st : state) : Prop :=
  ∀ fn, fn ∈ _all st → active st fn.

(** Two actions reverse the same subscription. *)
Definition same_subscription (a b : dispatchFn) : Prop :=
  fn_el a = fn_el b ∧ subscription a = subscription b.

(** A handler is subscribed at [el] for [event], under either capture
    flag: a dispatched event of that type would run it. *)
Definition fires (st : state) (el : element) (event : string)
    (h : handler) : Prop :=
  h ∈ dispatchEvent (targets st) el event.

(** The arguments of a call of [add]. *)
Definition registration : Type :=
  element * string * handler * option bool.

(** A sequence of calls of [add], the handles being dropped. *)
Definition addAll (regs : list registration) (st : state) : state :=
  foldl (λ st '(el, event, h, useCapture), (add el event h useCapture st).2)
        st regs.

(** The function identities are well formed: the tracked actions are
    distinct objects made before [next_fn]. *)
Definition wf (st : state) : Prop :=
  NoDup (fn_id <$> _all st) ∧ ∀ fn, fn ∈ _all st → fn_id fn < next_fn st.

(** What holds in the states reached with pairwise different active
    subscriptions. *)
Definition registry_invariant (st : state) : Prop :=
  wf st ∧ no_stale_entry st ∧
  ∀ a b, a ∈ _all st → b ∈ _all st → same_subscription a b → a = b.

(** The states a registry reaches from [new Listeners()], made on a
    platform with the listener lists [tg], through its methods, [remove]
    being called with tracked handles. *)
Inductive reachable (tg : gmap element (list listener)) : state → Prop :=
  | reachable_new : reachable tg (new tg)
  | reachable_add el event h useCapture st :
      reachable tg st → reachable tg (add el event h useCapture st).2
  | reachable_remove fn st :
      reachable tg st → fn ∈ _all st → reachable tg (remove fn st)
  | reachable_removeAll st :
      reachable tg st → reachable tg (removeAll st).

(** The same, where moreover [add] is only called for a subscription
    that is not active at that moment. *)
Inductive reachable_distinct (tg : gmap element (list listener))
  : state → Prop :=
  | distinct_new : reachable_distinct tg (new tg)
  | distinct_add el event h useCapture st :
      reachable_distinct tg st →
      listenerOf event h useCapture ∉ listenersOf (targets st) el →
      reachable_distinct tg (add el event h useCapture st).2
  | distinct_remove fn st :
      reachable_distinct tg st → fn ∈ _all st →
      reachable_distinct tg (remove fn st)
  | distinct_removeAll st :
      reachable_distinct tg st → reachable_distinct tg (removeAll st).

(** Every listener on the platform is the subscription of a tracked
    action: nothing was subscribed behind the registry's back. *)
Definition owns (st : state) : Prop :=
  ∀ el x, x ∈ listenersOf (targets st) el →
          ∃ fn, fn ∈ _all st ∧ fn_el fn = el ∧ subscription fn = x.

(** The handler [h] is subscribed at [el] for [event] through a listener
    that no tracked action stands for. *)
Definition untracked_subscription (st : state) (el : element)
    (event : string) (h : handler) : Prop :=
  ∃ capture,
    Listener event h capture ∈ listenersOf (targets st) el ∧
    ∀ fn, fn ∈ _all st →
          ¬ (fn_el fn = el ∧ subscription fn = Listener event h capture).

(** The platform call made by the unsubscribe action [fn]. *)
Definition detachCall (fn : dispatchFn) : platformCall :=
  RemoveEventListener (fn_el fn) (fn_event fn) (fn_handler fn)
                      (fn_useCapture fn).

End Listeners.

(** ** Example data *)

Definition ex_document : node := Node 0 DocumentNode None.
Definition ex_html : node := Node 1 ElementNode (Some ex_document).
Definition ex_body : node := Node 2 ElementNode (Some ex_html).
Definition ex_div : node := Node 3 ElementNode (Some ex_body).
Definition ex_detached : node := Node 4 ElementNode None.

(** A page scrolled by 120 pixels, the offset being reported on the body
    element only, as in quirks mode. *)
Definition ex_host : host :=
  Host ex_document (Some ex_html) (Some ex_body)
       (λ n, if decide (n = ex_body) then Num 120 else Num 0)
       (λ n, Num 0)
       (Some (Num 2)) (Num 768)
       (λ _, Rect (Num 8) (Num 208) (Num 28) (Num 8) (Num 200) (Num 20))
       (λ _, Rect (Num 0) (Num 10) (Num 10) (Num 0) (Num 10) (Num 10)).

(** Two registrations of the same click handler, and an unrelated one. *)
Definition ex_regs : list Listeners.registration :=
  [(1, "click", 7, None); (1, "click", 7, Some false); (2, "keydown", 8, Some true)].

(** A text node inside the page, and a style handle without methods. *)
Definition ex_text : node := Node 5 TextNode (Some ex_div).

Definition ex_noMethods : classListHandle (list jsstring) := λ _, None.

(** A document whose body has not been made yet, and one without a root
    element. *)
Definition ex_host_no_body : host :=
  Host ex_document (Some ex_html) None (λ _, Num 0) (λ _, Num 0)
       None (Num 768) (λ _, rectStub_init) (λ _, rectStub_init).

Definition ex_host_no_root : host :=
  Host ex_document None None (λ _, Num 0) (λ _, Num 0)
       None (Num 768) (λ _, rectStub_init) (λ _, rectStub_init).

(** * Properties *)

(** ** Mounted nodes *)

Section Mounted.

(** Induction along the parent link. *)
Lemma node_parent_ind (P : node → Prop) :
  (∀ i k, P (Node i k None)) →
  (∀ i k p, P p → P (Node i k (Some p))) →
  ∀ n, P n.
Proof.
  intros Hnone Hsome. fix IH 1. intros [i k [p|]].
  - apply Hsome, IH.
  - apply Hnone.
Qed.

Lemma contains_self (root : node) : contains root root = true.
Proof. destruct root as [i k p]; simpl. by rewrite bool_decide_eq_true_2. Qed.

Lemma contains_parent (root n p : node) :
  parentNode n = Some p → contains root p = true → contains root n = true.
Proof.
  destruct n as [i k q]; simpl. intros -> ->. apply orb_true_r.
Qed.

Lemma contains_inclusiveDescendant (root n : node) :
  contains root n = true ↔ inclusiveDescendant root n.
Proof.
  split.
  - induction n as [i k|i k p IH] using node_parent_ind; simpl;
      rewrite orb_true_iff, bool_decide_eq_true.
    + intros [->|?]; [constructor|done].
    + intros [->|Hp]; [constructor|].
      eapply descendant_parent; [reflexivity|auto].
  - induction 1 as [|n p Hp _ IH].
    + apply contains_self.
    + by eapply contains_parent.
Qed.

Lemma contains_arg_parentChainWithin (root n : node) :
  contains_arg root (parentNode n) = true ↔ parentChainWithin root n.
Proof.
  unfold parentChainWithin. destruct (parentNode n) as [p|]; simpl.
  - rewrite contains_inclusiveDescendant. split; [eauto|].
    by intros (q & [= ->] & Hq).
  - split; [done|]. by intros (q & [=] & _).
Qed.

Lemma inclusiveDescendant_reachableFrom (root p : node) :
  inclusiveDescendant root p →
  ∀ n, parentNode n = Some p → reachableFrom root n.
Proof.
  induction 1 as [|p q Hq _ IH]; intros n Hn.
  - by apply reach_child.
  - eapply reach_below; [exact Hn|]. by apply IH.
Qed.

Lemma parentChainWithin_reachableFrom (root n : node) :
  parentChainWithin root n ↔ reachableFrom root n.
Proof.
  split.
  - intros (p & Hp & Hin). by eapply inclusiveDescendant_reachableFrom.
  - induction 1 as [n Hn|n p Hn _ (q & Hq & Hin)].
    + exists root. split; [done|constructor].
    + exists p. split; [done|]. by eapply descendant_parent.
Qed.

(** With a root element, [isMounted] never throws. *)
Lemma isMounted_total (h : host) (v : value) (root : node) :
  documentElement h = Some root → ∃ b, isMounted h v = Ok b.
Proof.
  intros Hroot. destruct v as [n| |]; simpl; eauto.
  destruct (decide _); rewrite ?Hroot; eauto.
Qed.

(** The root element itself has the document as its parent, which the
    root element does not contain: it is reported as not mounted. *)
Lemma isMounted_documentElement (h : host) (root : node) :
  documentElement h = Some root →
  parentNode root = Some (document h) →
  parentNode (document h) = None →
  isMounted h (VNode root) = Ok false.
Proof.
  intros Hroot Hparent Hdoc. simpl.
  destruct (decide (root = document h)) as [Heq|_].
  { rewrite Heq, Hdoc in Hparent. done. }
  rewrite Hroot, Hparent. simpl. f_equal.
  destruct (contains root (document h)) eqn:Hc; [|done].
  apply contains_inclusiveDescendant in Hc.
  inversion Hc as [Heq|n p Hp _]; subst.
  - rewrite Hdoc in Hparent. done.
  - rewrite Hdoc in Hp. done.
Qed.

(** C2. [isMounted] answers true exactly for the document itself and for
    the nodes whose parent chain is contained in the document's root
    element, that is, the nodes from which one or more parent links lead to
    the root element. In particular the document is always mounted, and a
    node other than the document that has no parent, or whose parent is
    neither the root element nor below it, is not mounted: the answer is
    never true, and it is false as soon as the document has a root
    element. *)
Theorem isMounted_iff (h : host) (v : value) :
  (isMounted h v = Ok true ↔
     v = VNode (document h) ∨
     ∃ n root, v = VNode n ∧ documentElement h = Some root ∧
               parentChainWithin root n) ∧
  (isMounted h v = Ok true ↔
     v = VNode (document h) ∨
     ∃ n root, v = VNode n ∧ documentElement h = Some root ∧
               reachableFrom root n) ∧
  isMounted h (VNode (document h)) = Ok true ∧
  (∀ n, v = VNode n → n ≠ document h →
        parentNode n = None ∨
        (∃ p, parentNode n = Some p ∧
              ∀ root, documentElement h = Some root →
                      ¬ inclusiveDescendant root p) →
        isMounted h v ≠ Ok true ∧
        (∀ root, documentElement h = Some root → isMounted h v = Ok false)).
Proof.
  assert (Hmain : isMounted h v = Ok true ↔
     v = VNode (document h) ∨
     ∃ n root, v = VNode n ∧ documentElement h = Some root ∧
               parentChainWithin root n).
  { destruct v as [n|r|]; simpl.
    - destruct (decide (n = document h)) as [->|Hn].
      + split; [by left|done].
      + destruct (documentElement h) as [root|] eqn:Hroot.
        * split.
          -- intros [= Hc]. right. exists n, root.
             by rewrite <- contains_arg_parentChainWithin.
          -- intros [[= ?]|(n' & root' & [= <-] & [= <-] & Hc)]; [done|].
             f_equal. by apply contains_arg_parentChainWithin.
        * split; [done|].
          by intros [[= ?]|(n' & root' & _ & [=] & _)].
    - split; [done|]. by intros [[=]|(n & root & [=] & _)].
    - split; [done|]. by intros [[=]|(n & root & [=] & _)]. }
  split; [exact Hmain|]. split; [|split].
  - rewrite Hmain. split; (intros [?|(n & root & ? & ? & Hc)]; [by left|]);
      right; exists n, root; split_and!; try done;
      by apply parentChainWithin_reachableFrom.
  - simpl. by rewrite decide_True.
  - intros n -> Hn Hout.
    assert (Hnot : isMounted h (VNode n) ≠ Ok true).
    { rewrite Hmain. intros [[= ?]|(n' & root & [= <-] & Hroot & p & Hp & Hin)];
        [done|].
      destruct Hout as [Hnone|(q & Hq & Hout)]; [congruence|].
      rewrite Hp in Hq. injection Hq as <-. by eapply Hout. }
    split; [exact Hnot|]. intros root Hroot.
    destruct (isMounted_total h (VNode n) root Hroot) as [[|] Hb]; done.
Qed.

End Mounted.

(** ** Rectangles *)

Section Rect.

Lemma alloc_fresh (o : rect) (σ : gmap nat rect) :
  (alloc o σ).1 ∉ dom σ.
Proof. apply is_fresh. Qed.

Lemma alloc_lookup (o : rect) (σ : gmap nat rect) :
  (alloc o σ).2 !! (alloc o σ).1 = Some o.
Proof. apply lookup_insert_eq. Qed.

Lemma alloc_lookup_old (o : rect) (σ : gmap nat rect) (l : nat) :
  l ∈ dom σ → (alloc o σ).2 !! l = σ !! l.
Proof.
  intros Hl. unfold alloc; simpl. apply lookup_insert_ne.
  intros <-. by apply (is_fresh (dom σ)).
Qed.

(** On an unmounted value that is not a range, [getRect] copies the stub
    into a new object. *)
Lemma getRect_unmounted (h : host) (v : value) (σ : gmap nat rect)
    (stub : rect) :
  isRange v = false → isMounted h v = Ok false →
  σ !! rectStub = Some stub →
  getRect h v σ = Ok (alloc stub σ).
Proof.
  intros Hrange Hmounted Hstub. unfold getRect.
  rewrite Hrange, Hmounted. simpl. by rewrite Hstub.
Qed.

(** A call of [getRect] that returns makes one new object and leaves every
    object that was there, the stub included, as it was. *)
Lemma getRect_preserves (h : host) (v : value) (σ σ' : gmap nat rect)
    (l : nat) :
  getRect h v σ = Ok (l, σ') →
  (l ∉ dom σ) ∧ ∀ l', l' ∈ dom σ → σ' !! l' = σ !! l'.
Proof.
  unfold getRect.
  destruct (if isRange v then Ok true else isMounted h v) as [[|]|e];
    simpl; [| |done].
  - destruct (call_getBoundingClientRect h v) as [r|e]; simpl; [|done].
    intros [= <- <-]. split; [apply is_fresh|].
    intros l' Hl'. by apply alloc_lookup_old.
  - destruct (σ !! rectStub) as [stub|]; [|done].
    intros [= <- <-]. split; [apply is_fresh|].
    intros l' Hl'. by apply alloc_lookup_old.
Qed.

(** C3. For detached values [v1] and [v2] (not ranges, reported as not
    mounted), on a heap where the module's stub is as initialised,
    [getRect] returns an object holding exactly
    [{top: 0, right: 0, bottom: 0, left: 0, width: 0, height: 0}]; two
    calls in a row return two different new objects with these contents,
    neither of which is the stub object, and whatever a caller writes into
    the first one is not seen by the second call. *)
Theorem getRect_detached_fresh_stub (h : host) (v1 v2 : value)
    (σ : gmap nat rect) :
  isRange v1 = false → isMounted h v1 = Ok false →
  isRange v2 = false → isMounted h v2 = Ok false →
  σ !! rectStub = Some rectStub_init →
  let zero := Rect (Num 0) (Num 0) (Num 0) (Num 0) (Num 0) (Num 0) in
  ∃ l1 σ1 l2 σ2,
    getRect h v1 σ = Ok (l1, σ1) ∧ getRect h v2 σ1 = Ok (l2, σ2) ∧
    σ1 !! l1 = Some zero ∧ σ2 !! l2 = Some zero ∧ σ2 !! l1 = Some zero ∧
    l1 ≠ l2 ∧ l1 ≠ rectStub ∧ l2 ≠ rectStub ∧
    (l1 ∉ dom σ) ∧ (l2 ∉ dom σ1) ∧
    σ2 !! rectStub = Some zero ∧
    ∀ written : rect,
      ∃ l2' σ2', getRect h v2 (<[l1 := written]> σ1) = Ok (l2', σ2') ∧
                 l2' ≠ l1 ∧ σ2' !! l2' = Some zero ∧
                 σ2' !! l1 = Some written.
Proof.
  intros Hr1 Hm1 Hr2 Hm2 Hstub zero.
  pose proof (alloc_fresh rectStub_init σ) as Hf1.
  assert (Hstub_dom : rectStub ∈ dom σ) by (apply elem_of_dom; eauto).
  set (l1 := (alloc rectStub_init σ).1) in *.
  set (σ1 := (alloc rectStub_init σ).2).
  assert (Hl1 : σ1 !! l1 = Some rectStub_init) by apply alloc_lookup.
  assert (Hne1 : l1 ≠ rectStub) by (intros Heq; by rewrite Heq in Hf1).
  assert (Hstub1 : σ1 !! rectStub = Some rectStub_init).
  { unfold σ1. by rewrite alloc_lookup_old. }
  pose proof (alloc_fresh rectStub_init σ1) as Hf2.
  set (l2 := (alloc rectStub_init σ1).1) in *.
  set (σ2 := (alloc rectStub_init σ1).2).
  assert (Hl1_dom : l1 ∈ dom σ1) by (apply elem_of_dom; eauto).
  assert (Hstub1_dom : rectStub ∈ dom σ1) by (apply elem_of_dom; eauto).
  exists l1, σ1, l2, σ2. split_and!.
  - by rewrite (getRect_unmounted h v1 σ rectStub_init).
  - by rewrite (getRect_unmounted h v2 σ1 rectStub_init).
  - exact Hl1.
  - apply alloc_lookup.
  - unfold σ2. by rewrite alloc_lookup_old.
  - intros Heq. by rewrite <- Heq in Hf2.
  - exact Hne1.
  - intros Heq. by rewrite Heq in Hf2.
  - exact Hf1.
  - exact Hf2.
  - unfold σ2. by rewrite alloc_lookup_old.
  - intros written.
    set (σ1' := <[l1 := written]> σ1).
    assert (Hstub1' : σ1' !! rectStub = Some rectStub_init).
    { unfold σ1'. by rewrite lookup_insert_ne. }
    assert (Hl1' : σ1' !! l1 = Some written) by apply lookup_insert_eq.
    pose proof (alloc_fresh rectStub_init σ1') as Hf2'.
    exists (alloc rectStub_init σ1').1, (alloc rectStub_init σ1').2.
    split_and!.
    + by rewrite (getRect_unmounted h v2 σ1' rectStub_init).
    + intros Heq. rewrite Heq in Hf2'. apply Hf2', elem_of_dom. eauto.
    + apply alloc_lookup.
    + rewrite alloc_lookup_old; [done|]. apply elem_of_dom. eauto.
Qed.

End Rect.

(** ** Window and document accessors *)

Section Accessors.

(** C7. [getPixelRatio] is exactly [1] when [window] has no
    [devicePixelRatio] property, and the value of that property
    otherwise. *)
Theorem getPixelRatio_feature (h : host) :
  (devicePixelRatio h = None → getPixelRatio h = Num 1) ∧
  (∀ r, devicePixelRatio h = Some r → getPixelRatio h = r).
Proof.
  unfold getPixelRatio. split.
  - by intros ->.
  - by intros r ->.
Qed.

(** Without a root value to return and without a body element, the
    fallback read throws. *)
Lemma getDocumentScrollTop_no_body (h : host) :
  documentElement h = None → body h = None →
  getDocumentScrollTop h = Throw TypeError.
Proof. unfold getDocumentScrollTop. by intros -> ->. Qed.


End Accessors.

(** ** preventDefault *)

Section PreventDefault.

(** C8. [preventDefault e] runs [e]'s [preventDefault] method when [e] has
    one, and only then: with the method the outcome is that of the method,
    without it the world is left as it was and nothing is thrown, as for
    the plain object [{}]. On a native event the count of invocations goes
    up by one exactly when the method is there. *)
Theorem preventDefault_iff_capability (S : Type) (e : eventLike S) (s : S) :
  (∀ method, ev_preventDefault e = Some method →
             preventDefault e s = method s) ∧
  (ev_preventDefault e = None → preventDefault e s = Ok s) ∧
  preventDefault plainObject s = Ok s ∧
  (∀ (present : bool) (ev : nativeEvent),
     ∃ ev', preventDefault (if present then nativeEventObject
                            else plainObject) ev = Ok ev' ∧
            (ne_calls ev' = ne_calls ev + 1 ↔ present = true) ∧
            (ev' = ev ↔ present = false)).
Proof.
  unfold preventDefault. split_and!.
  - by intros method ->.
  - by intros ->.
  - done.
  - intros [|] ev; simpl; eexists; (split; [reflexivity|]); simpl.
    + split; [split; [done|lia]|].
      split; [|done]. intros Heq. apply (f_equal ne_calls) in Heq.
      simpl in Heq. lia.
    + split; [split; [lia|done]|done].
Qed.

End PreventDefault.

(** ** Class-list helpers *)

Section ClassList.

Context {S : Type}.

(** The pieces of a split, empty ones dropped, are the tokens of the part
    of the string that is still to be read, the first one continuing the
    piece [cur]. *)
Lemma split_go_Tokens (s cur : jsstring) (inSep : bool) :
  Forall (λ c, isWhiteSpace c = false) cur →
  (inSep = true → cur = []) →
  Tokens (cur ++ s)
         (filter (λ className : jsstring, className ≠ [])
                 (split_go s cur inSep)).
Proof.
  revert cur inSep. induction s as [|c s IH]; intros cur inSep Hcur Hsep; simpl.
  - rewrite app_nil_r. destruct (decide (cur = [])) as [->|Hne].
    + rewrite filter_cons_False by (intros H; by apply H). constructor.
    + rewrite filter_cons_True by done. simpl.
      rewrite <- (app_nil_r cur) at 1. constructor; auto. constructor.
  - destruct (isWhiteSpace c) eqn:Hc.
    + assert (Hrest : Tokens (c :: s)
                (filter (λ className : jsstring, className ≠ [])
                        (split_go s [] true))).
      { constructor; [done|]. apply (IH [] true); [constructor|done]. }
      destruct inSep.
      * by rewrite (Hsep eq_refl).
      * destruct (decide (cur = [])) as [->|Hne].
        -- by rewrite filter_cons_False by (intros H; by apply H).
        -- rewrite filter_cons_True by done. constructor; eauto.
    + replace (cur ++ c :: s) with ((cur ++ [c]) ++ s)
        by (by rewrite <- app_assoc).
      apply IH; [|done]. apply Forall_app. split; [done|]. by constructor.
Qed.

Lemma split_whitespace_Tokens (s : jsstring) :
  Tokens s (filter (λ className : jsstring, className ≠ [])
                   (split_whitespace s)).
Proof. apply (split_go_Tokens s [] false); [constructor|done]. Qed.

(** A run of non-white-space characters that ends at white space or at the
    end of the string is determined by the string. *)
Lemma word_unique (t t' s s' : jsstring) :
  Forall (λ c, isWhiteSpace c = false) t →
  Forall (λ c, isWhiteSpace c = false) t' →
  s = [] ∨ (∃ c r, s = c :: r ∧ isWhiteSpace c = true) →
  s' = [] ∨ (∃ c r, s' = c :: r ∧ isWhiteSpace c = true) →
  t ++ s = t' ++ s' → t = t' ∧ s = s'.
Proof.
  revert t'. induction t as [|a t IH]; intros [|a' t'] Ht Ht' Hs Hs'; simpl.
  - done.
  - intros ->. apply Forall_cons in Ht' as [Ha' _].
    destruct Hs as [[=]|(c & r & [= <- _] & Hc)]. congruence.
  - intros <-. apply Forall_cons in Ht as [Ha _].
    destruct Hs' as [[=]|(c & r & [= <- _] & Hc)]. congruence.
  - intros [= <- Heq]. apply Forall_cons in Ht as [_ Ht].
    apply Forall_cons in Ht' as [_ Ht'].
    destruct (IH t' Ht Ht' Hs Hs' Heq) as [-> ->]. done.
Qed.

(** A string has one token list. *)
Lemma Tokens_functional (s : jsstring) (ts ts' : list jsstring) :
  Tokens s ts → Tokens s ts' → ts = ts'.
Proof.
  intros H. revert ts'.
  induction H as [|c s ts Hc _ IH|t s ts Hne Ht Hs _ IH]; intros ts' H'.
  - inversion H' as [| |t' s' ts0 Hne' _ _ _ Heq]; [done|].
    by destruct t'.
  - inversion H' as [|c' s' ts0 _ Hrest|t' s' ts0 Hne' Ht' _ _ Heq]; subst.
    + by apply IH.
    + destruct t' as [|a t']; [done|]. injection Heq as -> _.
      apply Forall_cons in Ht' as [Ha _]. congruence.
  - inversion H' as [Heq|c' s' ts0 Hc' _ Heq|t' s' ts0 Hne' Ht' Hs' Hrest Heq];
      subst.
    + by destruct t.
    + destruct t as [|a t]; [done|]. injection Heq as -> _.
      apply Forall_cons in Ht as [Ha _]. congruence.
    + destruct (word_unique t' t s' s Ht' Ht Hs' Hs Heq) as [-> ->].
      f_equal. by apply IH.
Qed.

Lemma Tokens_all_whitespace (s : jsstring) :
  Forall (λ c, isWhiteSpace c = true) s → Tokens s [].
Proof. induction 1; by constructor. Qed.

(** The tokens are not empty and hold no white space. *)
Lemma Tokens_wellformed (s : jsstring) (ts : list jsstring) :
  Tokens s ts →
  Forall (λ t, t ≠ [] ∧ Forall (λ c, isWhiteSpace c = false) t) ts.
Proof. induction 1; auto. Qed.

Lemma forEach_recorder (method : string) (ts : list jsstring)
    (log : list (string * list jsstring)) :
  forEach (λ className, call_method recorder method [className]) ts log
  = Ok (log ++ ((λ t, (method, [t])) <$> ts)).
Proof.
  revert log. induction ts as [|t ts IH]; intros log; simpl.
  - by rewrite app_nil_r.
  - unfold call_method at 1, recorder at 1. simpl.
    rewrite IH. by rewrite <- app_assoc.
Qed.

(** On the platform's token list the helpers never throw: every token
    they pass is accepted, and [addClasses] makes exactly the tokens of the
    spec present in addition to those already there. *)
Lemma validateTokens_token (t : jsstring) :
  t ≠ [] → Forall (λ c, isWhiteSpace c = false) t →
  validateTokens [t] = Ok ().
Proof.
  intros Hne Hws. simpl. rewrite decide_False by done.
  replace (existsb isAsciiWhiteSpace t) with false; [done|].
  symmetry. apply not_true_is_false. intros Hex.
  apply existsb_exists in Hex as (c & Hc%list_elem_of_In & Hascii).
  rewrite Forall_forall in Hws. specialize (Hws c Hc).
  unfold isAsciiWhiteSpace in Hascii. apply bool_decide_eq_true in Hascii.
  repeat (apply elem_of_cons in Hascii as [->|Hascii]; [done|]).
  by apply elem_of_nil in Hascii.
Qed.

Lemma DOMTokenList_add_token (t : jsstring) (set : list jsstring) :
  t ≠ [] → Forall (λ c, isWhiteSpace c = false) t →
  call_method DOMTokenList "add" [t] set
  = Ok (if decide (t ∈ set) then set else set ++ [t]).
Proof.
  intros Hne Hws. unfold call_method. simpl.
  pose proof (validateTokens_token t Hne Hws) as Hvalid.
  simpl in Hvalid. by rewrite Hvalid.
Qed.

Lemma addClasses_DOMTokenList (classes : option jsstring)
    (set : list jsstring) :
  ∃ ts set', Tokens (default [] classes) ts ∧
             addClasses DOMTokenList classes set = Ok set' ∧
             ∀ t, t ∈ set' ↔ t ∈ set ∨ t ∈ ts.
Proof.
  pose proof (split_whitespace_Tokens (default [] classes)) as Htok.
  pose proof (Tokens_wellformed _ _ Htok) as Hwf.
  unfold addClasses, applyMethodToClasses.
  revert Htok Hwf.
  generalize (filter (λ className : jsstring, className ≠ [])
                     (split_whitespace (default [] classes))).
  intros ts Htok Hwf. exists ts.
  cut (∃ set', forEach (λ className,
                          call_method DOMTokenList "add" [className]) ts set
               = Ok set' ∧ ∀ t, t ∈ set' ↔ t ∈ set ∨ t ∈ ts).
  { intros (set' & ? & ?). by exists set'. }
  clear Htok. revert set.
  induction Hwf as [|t ts [Hne Hws] _ IH]; intros set; cbn [forEach].
  - exists set. split; [done|]. intros t. rewrite elem_of_nil. tauto.
  - rewrite (DOMTokenList_add_token t set Hne Hws). cbn [mbind result_bind].
    destruct (IH (if decide (t ∈ set) then set else set ++ [t]))
      as (set' & Hrun & Hmem).
    exists set'. split; [exact Hrun|]. intros u. rewrite Hmem, elem_of_cons.
    destruct (decide (t ∈ set)) as [Hin|Hnin].
    + split; [tauto|]. intros [?|[Heq|?]]; [tauto|subst u; tauto|tauto].
    + rewrite elem_of_app, list_elem_of_singleton. tauto.
Qed.

(** C5. [applyMethodToClasses method], hence [addClasses] and
    [removeClasses], calls the method of the handle once for every token of
    the class spec, in order, each call with that single token; the tokens
    are the maximal runs without white space, so no token is empty. With
    the empty string, [undefined] or a spec of white space only, the handle
    is not touched; with ["a  b"] the calls are exactly one for [a] and one
    for [b]. *)
Theorem applyMethodToClasses_each_token (method : string)
    (classList : classListHandle S) (classes : option jsstring) (s : S) :
  (∃ ts, Tokens (default [] classes) ts ∧
         applyMethodToClasses method classList classes s
         = forEach (λ t, call_method classList method [t]) ts s ∧
         applyMethodToClasses method recorder classes []
         = Ok ((λ t, (method, [t])) <$> ts)) ∧
  addClasses classList classes s
  = applyMethodToClasses "add" classList classes s ∧
  removeClasses classList classes s
  = applyMethodToClasses "remove" classList classes s ∧
  (Forall (λ c, isWhiteSpace c = true) (default [] classes) →
   applyMethodToClasses method classList classes s = Ok s) ∧
  applyMethodToClasses method classList (Some (js "")) s = Ok s ∧
  applyMethodToClasses method classList None s = Ok s ∧
  applyMethodToClasses method classList (Some (js "   ")) s = Ok s ∧
  applyMethodToClasses method recorder (Some (js "a  b")) []
  = Ok [(method, [js "a"]); (method, [js "b"])] ∧
  addClasses DOMTokenList (Some (js "a  b")) [] = Ok [js "a"; js "b"].
Proof.
  split_and!; try done.
  - exists (filter (λ className : jsstring, className ≠ [])
                   (split_whitespace (default [] classes))).
    split_and!; [apply split_whitespace_Tokens|done|].
    unfold applyMethodToClasses. by rewrite forEach_recorder.
  - intros Hws. unfold applyMethodToClasses.
    rewrite (Tokens_functional _ _ [] (split_whitespace_Tokens _)
               (Tokens_all_whitespace _ Hws)).
    done.
Qed.

End ClassList.

(** ** The listener registry *)

Import Listeners.

Section Platform.

Implicit Types (tg : gmap element (list listener)) (el : element).

Lemma listenersOf_addEventListener tg el event h useCapture el' :
  listenersOf (addEventListener el event h useCapture tg) el'
  = if decide (el' = el) then
      if decide (listenerOf event h useCapture ∈ listenersOf tg el)
      then listenersOf tg el
      else listenersOf tg el ++ [listenerOf event h useCapture]
    else listenersOf tg el'.
Proof.
  unfold addEventListener.
  destruct (decide (el' = el)) as [->|Hne];
    destruct (decide (_ ∈ _)); try done; unfold listenersOf at 1.
  - by rewrite lookup_insert_eq.
  - by rewrite lookup_insert_ne.
Qed.

Lemma listenersOf_removeEventListener tg el event h useCapture el' :
  listenersOf (removeEventListener el event h useCapture tg) el'
  = if decide (el' = el) then
      filter (λ x, x ≠ listenerOf event h useCapture) (listenersOf tg el)
    else listenersOf tg el'.
Proof.
  unfold removeEventListener, listenersOf.
  destruct (decide (el' = el)) as [->|Hne].
  - rewrite lookup_alter_eq. by destruct (tg !! el).
  - by rewrite lookup_alter_ne.
Qed.

(** Adding makes the listener present and keeps every other one. *)
Lemma elem_of_addEventListener tg el event h useCapture el' x :
  x ∈ listenersOf (addEventListener el event h useCapture tg) el' ↔
  x ∈ listenersOf tg el' ∨ (el' = el ∧ x = listenerOf event h useCapture).
Proof.
  rewrite listenersOf_addEventListener.
  destruct (decide (el' = el)) as [->|Hne]; [|intuition (subst; auto)].
  destruct (decide (_ ∈ _)) as [Hin|Hnin].
  - intuition (subst; auto).
  - rewrite elem_of_app, list_elem_of_singleton. intuition (subst; auto).
Qed.

(** Removing drops that listener from that target and nothing else. *)
Lemma elem_of_removeEventListener tg el event h useCapture el' x :
  x ∈ listenersOf (removeEventListener el event h useCapture tg) el' ↔
  x ∈ listenersOf tg el' ∧ ¬ (el' = el ∧ x = listenerOf event h useCapture).
Proof.
  rewrite listenersOf_removeEventListener.
  destruct (decide (el' = el)) as [->|Hne]; [|intuition (subst; auto)].
  rewrite list_elem_of_filter. intuition (subst; auto).
Qed.

Lemma NoDup_addEventListener tg el event h useCapture el' :
  NoDup (listenersOf tg el') →
  NoDup (listenersOf (addEventListener el event h useCapture tg) el').
Proof.
  intros Hnd. rewrite listenersOf_addEventListener.
  destruct (decide (el' = el)) as [->|Hne]; [|done].
  destruct (decide (_ ∈ _)) as [Hin|Hnin]; [done|].
  apply NoDup_app. split_and!; [done| |apply NoDup_singleton].
  intros x Hx ->%list_elem_of_singleton. done.
Qed.

(** A listener of a duplicate-free list occurs in it once. *)
Lemma occurs_once (l : list listener) (x : listener) :
  NoDup l → x ∈ l → length (filter (λ y, y = x) l) = 1.
Proof.
  induction 1 as [|y l Hy Hnd IH]; [by intros ?%elem_of_nil|].
  intros [Heq|Hx]%elem_of_cons.
  - subst y. rewrite filter_cons_True by done. simpl. f_equal.
    destruct (filter (λ y, y = x) l) as [|z k] eqn:Hf; [done|].
    assert (Hz : z ∈ filter (λ y, y = x) l) by (rewrite Hf; left).
    apply list_elem_of_filter in Hz as [Hzx Hz]. by subst z.
  - rewrite filter_cons_False; [by apply IH|]. by intros ->.
Qed.

(** A dispatched event runs [h] exactly when [h] is subscribed under one
    of the two capture flags. *)
Lemma elem_of_dispatchEvent tg el event h :
  h ∈ dispatchEvent tg el event ↔
  ∃ capture, Listener event h capture ∈ listenersOf tg el.
Proof.
  unfold dispatchEvent. rewrite list_elem_of_fmap. split.
  - intros ([ty cb capture] & -> & [Hty Hin]%list_elem_of_filter).
    simpl in *. subst. eauto.
  - intros (capture & Hin). exists (Listener event h capture).
    split; [done|]. by apply list_elem_of_filter.
Qed.

End Platform.

Section TrackedSet.

Implicit Types (fn : dispatchFn) (s : list dispatchFn).

Lemma set_has_true fn s : set_has fn s = true ↔ fn_id fn ∈ fn_id <$> s.
Proof. unfold set_has. apply bool_decide_eq_true. Qed.

Lemma set_has_false fn s : set_has fn s = false ↔ fn_id fn ∉ fn_id <$> s.
Proof. unfold set_has. apply bool_decide_eq_false. Qed.

Lemma set_has_elem_of fn s : fn ∈ s → set_has fn s = true.
Proof. intros Hin. apply set_has_true. by apply list_elem_of_fmap_2. Qed.

Lemma elem_of_set_delete fn s x :
  x ∈ set_delete fn s ↔ x ∈ s ∧ fn_id x ≠ fn_id fn.
Proof. unfold set_delete. rewrite list_elem_of_filter. tauto. Qed.

(** Deleting an entry that is not there changes nothing. *)
Lemma set_delete_absent fn s : set_has fn s = false → set_delete fn s = s.
Proof.
  rewrite set_has_false. unfold set_delete.
  induction s as [|x s IH]; [done|]. rewrite fmap_cons, not_elem_of_cons.
  intros [Hx Hs]. rewrite filter_cons_True by done. f_equal. by apply IH.
Qed.

Lemma set_has_set_delete fn s : set_has fn (set_delete fn s) = false.
Proof.
  apply set_has_false. intros (x & Hid & Hx)%list_elem_of_fmap.
  apply elem_of_set_delete in Hx as [_ Hx]. done.
Qed.

Lemma set_add_fresh fn s : fn_id fn ∉ fn_id <$> s → set_add fn s = s ++ [fn].
Proof. intros Hf%set_has_false. unfold set_add. by rewrite Hf. Qed.

Lemma set_delete_last fn s :
  fn_id fn ∉ fn_id <$> s → set_delete fn (s ++ [fn]) = s.
Proof.
  intros Hf. unfold set_delete. rewrite filter_app.
  rewrite filter_cons_False by (intros H; by apply H).
  rewrite filter_nil, app_nil_r. by apply set_delete_absent, set_has_false.
Qed.

Lemma length_set_delete fn s :
  NoDup (fn_id <$> s) → fn ∈ s →
  length (set_delete fn s) + 1 = length s.
Proof.
  unfold set_delete. induction s as [|x s IH]; [by intros _ ?%elem_of_nil|].
  rewrite fmap_cons, NoDup_cons. intros [Hx Hnd] Hin.
  destruct (decide (fn_id x = fn_id fn)) as [Heq|Hne].
  - rewrite filter_cons_False by (intros H; by apply H).
    rewrite Heq in Hx. fold (set_delete fn s).
    rewrite set_delete_absent by (by apply set_has_false). simpl. lia.
  - rewrite filter_cons_True by done. simpl.
    apply elem_of_cons in Hin as [->|Hin]; [done|].
    specialize (IH Hnd Hin). lia.
Qed.

(** Tracked actions with the same identity are the same action. *)
Lemma tracked_id_inj s x y :
  NoDup (fn_id <$> s) → x ∈ s → y ∈ s → fn_id x = fn_id y → x = y.
Proof.
  induction s as [|z s IH]; [by intros _ ?%elem_of_nil|].
  rewrite fmap_cons, NoDup_cons.
  intros [Hz Hnd] [->|Hx]%elem_of_cons [->|Hy]%elem_of_cons Hid.
  - done.
  - exfalso. apply Hz. rewrite Hid. by apply list_elem_of_fmap_2.
  - exfalso. apply Hz. rewrite <- Hid. by apply list_elem_of_fmap_2.
  - by apply IH.
Qed.

Lemma NoDup_set_delete fn s :
  NoDup (fn_id <$> s) → NoDup (fn_id <$> set_delete fn s).
Proof.
  unfold set_delete. induction s as [|x s IH]; [done|].
  rewrite fmap_cons, NoDup_cons. intros [Hx Hnd].
  destruct (decide (fn_id x ≠ fn_id fn)).
  - rewrite filter_cons_True by done. rewrite fmap_cons, NoDup_cons.
    split; [|by apply IH].
    intros (y & Hid & [_ Hy]%list_elem_of_filter)%list_elem_of_fmap.
    apply Hx. rewrite Hid. by apply list_elem_of_fmap_2.
  - rewrite filter_cons_False by done. by apply IH.
Qed.

End TrackedSet.

Section Registry.

Implicit Types (st : state) (fn : dispatchFn) (el : element).

Lemma wf_new tg : wf (new tg).
Proof. split; [constructor|]. by intros fn ?%elem_of_nil. Qed.

Lemma wf_next_fresh st : wf st → next_fn st ∉ fn_id <$> _all st.
Proof.
  intros [_ Hlt] (fn & Hid & Hin)%list_elem_of_fmap.
  specialize (Hlt fn Hin). lia.
Qed.

(** In a well-formed state the new unsubscribe action is a new entry. *)
Lemma all_add st el event h useCapture :
  wf st →
  _all (add el event h useCapture st).2
  = _all st ++ [(add el event h useCapture st).1].
Proof. intros Hwf. simpl. apply set_add_fresh. by apply wf_next_fresh. Qed.

Lemma wf_add st el event h useCapture :
  wf st → wf (add el event h useCapture st).2.
Proof.
  intros Hwf. pose proof (wf_next_fresh st Hwf) as Hfresh.
  destruct Hwf as [Hnd Hlt]. unfold wf.
  rewrite all_add by done. simpl. split.
  - rewrite fmap_app. apply NoDup_app. split_and!; [done| |apply NoDup_singleton].
    intros x Hx ->%list_elem_of_singleton. done.
  - intros fn [Hin| ->%list_elem_of_singleton]%elem_of_app; simpl; [|lia].
    specialize (Hlt fn Hin). lia.
Qed.

Lemma wf_remove st fn : wf st → wf (remove fn st).
Proof.
  intros [Hnd Hlt]. split; simpl.
  - by apply NoDup_set_delete.
  - intros x [Hx _]%elem_of_set_delete. by apply Hlt.
Qed.

(** C9. In a well-formed state, two calls of [add] with the same element,
    event name, handler and capture flag return two different unsubscribe
    actions and make the tracked set two entries larger, although the
    platform is asked twice and keeps one listener: the second call leaves
    the listener lists as they were, and a duplicate-free list holds the
    listener once. *)
Theorem add_twice_two_handles_one_listener st el event h useCapture :
  wf st →
  let r1 := add el event h useCapture st in
  let r2 := add el event h useCapture r1.2 in
  r1.1 ≠ r2.1 ∧ fn_id r1.1 ≠ fn_id r2.1 ∧
  _all r2.2 = _all st ++ [r1.1; r2.1] ∧
  length (_all r2.2) = length (_all st) + 2 ∧
  calls r2.2 = calls st ++ [AddEventListener el event h useCapture;
                            AddEventListener el event h useCapture] ∧
  targets r2.2 = targets r1.2 ∧
  listenerOf event h useCapture ∈ listenersOf (targets r2.2) el ∧
  (NoDup (listenersOf (targets st) el) →
   length (filter (λ x, x = listenerOf event h useCapture)
                  (listenersOf (targets r2.2) el)) = 1).
Proof.
  intros Hwf r1 r2.
  pose proof (wf_add st el event h useCapture Hwf) as Hwf1.
  assert (Hall : _all r2.2 = _all st ++ [r1.1; r2.1]).
  { unfold r2. rewrite all_add by done. fold r1.
    unfold r1 at 1. rewrite all_add by done. by rewrite <- app_assoc. }
  assert (Hin : listenerOf event h useCapture
                ∈ listenersOf (targets r1.2) el).
  { simpl. apply elem_of_addEventListener. by right. }
  assert (Htg : targets r2.2 = targets r1.2).
  { simpl. unfold addEventListener at 1. by rewrite decide_True. }
  split_and!.
  - intros Heq. apply (f_equal fn_id) in Heq. simpl in Heq. lia.
  - simpl. lia.
  - exact Hall.
  - rewrite Hall, length_app. simpl. lia.
  - simpl. by rewrite <- app_assoc.
  - exact Htg.
  - by rewrite Htg.
  - intros Hnd. rewrite Htg. apply occurs_once; [|done].
    simpl. by apply NoDup_addEventListener.
Qed.

(** C10. [remove] is idempotent on the tracked set: a second call with the
    same handle leaves the set as the first call left it, and more generally
    [remove] with a handle that is not tracked does not change the set;
    yet every call runs the handle's detach action, that is, calls
    [removeEventListener] once more. *)
Theorem remove_idempotent_on_tracked_set st fn :
  _all (remove fn (remove fn st)) = _all (remove fn st) ∧
  (set_has fn (_all st) = false → _all (remove fn st) = _all st) ∧
  calls (remove fn st)
  = calls st ++ [RemoveEventListener (fn_el fn) (fn_event fn)
                                     (fn_handler fn) (fn_useCapture fn)] ∧
  calls (remove fn (remove fn st))
  = calls (remove fn st)
    ++ [RemoveEventListener (fn_el fn) (fn_event fn)
                            (fn_handler fn) (fn_useCapture fn)].
Proof.
  split_and!; simpl; try done.
  - apply set_delete_absent, set_has_set_delete.
  - apply set_delete_absent.
Qed.

(** *** removeAll *)

Lemma all_forEach_remove (l : list dispatchFn) st :
  _all (foldl (λ st fn, if set_has fn (_all st) then remove fn st else st)
              st l)
  = foldl (λ s fn, set_delete fn s) (_all st) l.
Proof.
  revert st. induction l as [|fn l IH]; intros st; [done|]. simpl.
  rewrite IH. destruct (set_has fn (_all st)) eqn:Hhas; [done|].
  by rewrite set_delete_absent.
Qed.

Lemma elem_of_foldl_set_delete (l s : list dispatchFn) x :
  x ∈ foldl (λ s fn, set_delete fn s) s l → x ∈ s ∧ fn_id x ∉ fn_id <$> l.
Proof.
  revert s. induction l as [|fn l IH]; intros s; simpl.
  - intros Hx. split; [done|apply not_elem_of_nil].
  - intros [[Hx Hne]%elem_of_set_delete Hl]%IH. split; [done|].
    rewrite not_elem_of_cons. done.
Qed.

(** [removeAll] leaves no entry. *)
Lemma all_removeAll st : _all (removeAll st) = [].
Proof.
  unfold removeAll. rewrite all_forEach_remove. apply elem_of_nil_inv.
  intros x [Hx Hid]%elem_of_foldl_set_delete.
  apply Hid. by apply list_elem_of_fmap_2.
Qed.

Lemma next_fn_forEach_remove (l : list dispatchFn) st :
  next_fn (foldl (λ st fn, if set_has fn (_all st) then remove fn st else st)
                 st l) = next_fn st.
Proof.
  revert st. induction l as [|fn l IH]; intros st; [done|]. simpl.
  rewrite IH. by destruct (set_has fn (_all st)).
Qed.

Lemma wf_removeAll st : wf (removeAll st).
Proof.
  split; rewrite all_removeAll; [constructor|]. by intros fn ?%elem_of_nil.
Qed.

(** Visiting distinct tracked actions removes the subscription of each of
    them from the platform, and nothing else. *)
Lemma targets_forEach_remove (l : list dispatchFn) st el x :
  NoDup (fn_id <$> l) → (∀ fn, fn ∈ l → fn ∈ _all st) →
  x ∈ listenersOf
        (targets (foldl (λ st fn, if set_has fn (_all st) then remove fn st
                                  else st) st l)) el ↔
  x ∈ listenersOf (targets st) el ∧
  ∀ fn, fn ∈ l → ¬ (el = fn_el fn ∧ x = subscription fn).
Proof.
  revert st. induction l as [|fn l IH]; intros st Hnd Hsub; simpl.
  - split; [|tauto]. intros Hx. split; [done|]. by intros fn ?%elem_of_nil.
  - rewrite fmap_cons, NoDup_cons in Hnd. destruct Hnd as [Hfn Hnd].
    rewrite set_has_elem_of by (apply Hsub; left).
    rewrite IH; [|done|].
    + simpl. rewrite elem_of_removeEventListener. fold (subscription fn).
      split.
      * intros [[Hx Hne] Hl]. split; [done|].
        intros fn' [->|Hin]%elem_of_cons; auto.
      * intros [Hx Hl]. split_and!; [done| |].
        -- apply Hl. left.
        -- intros fn' Hin. apply Hl. by right.
    + intros fn' Hin. simpl. apply elem_of_set_delete. split.
      * apply Hsub. by right.
      * intros Heq. apply Hfn. rewrite <- Heq. by apply list_elem_of_fmap_2.
Qed.

Lemma elem_of_targets_removeAll st el x :
  wf st →
  x ∈ listenersOf (targets (removeAll st)) el ↔
  x ∈ listenersOf (targets st) el ∧
  ∀ fn, fn ∈ _all st → ¬ (el = fn_el fn ∧ x = subscription fn).
Proof. intros [Hnd _]. by apply targets_forEach_remove. Qed.

(** *** Sequences of add *)

Lemma addAll_cons (reg : registration) (regs : list registration) st :
  addAll (reg :: regs) st
  = addAll regs (add reg.1.1.1 reg.1.1.2 reg.1.2 reg.2 st).2.
Proof. by destruct reg as [[[el event] h] useCapture]. Qed.

Lemma wf_addAll (regs : list registration) st : wf st → wf (addAll regs st).
Proof.
  revert st. induction regs as [|reg regs IH]; intros st Hwf; [done|].
  rewrite addAll_cons. by apply IH, wf_add.
Qed.






(** *** A registry that is the only subscriber *)

Lemma owns_new_empty : owns (new ∅).
Proof.
  intros el x Hx. unfold listenersOf in Hx. simpl in Hx.
  rewrite lookup_empty in Hx. by apply elem_of_nil in Hx.
Qed.

Lemma owns_add st el event h useCapture :
  wf st → owns st → owns (add el event h useCapture st).2.
Proof.
  intros Hwf Howns el' x. rewrite all_add by done. simpl.
  intros [Hx|[-> ->]]%elem_of_addEventListener.
  - destruct (Howns el' x Hx) as (fn & Hfn & Hel & Hsub).
    exists fn. split; [|done]. apply elem_of_app. by left.
  - eexists. split; [apply elem_of_app; right; left|done].
Qed.

Lemma owns_remove st fn :
  wf st → owns st → fn ∈ _all st → owns (remove fn st).
Proof.
  intros [Hnd _] Howns Hfn el x. simpl.
  intros [Hx Hne]%elem_of_removeEventListener.
  destruct (Howns el x Hx) as (a & Ha & Hel & Hsub).
  exists a. split; [|done]. apply elem_of_set_delete. split; [done|].
  intros Hid. apply Hne.
  rewrite (tracked_id_inj (_all st) a fn Hnd Ha Hfn Hid) in Hel, Hsub. done.
Qed.

Lemma owns_removeAll st : wf st → owns st → owns (removeAll st).
Proof.
  intros Hwf Howns el x [Hx Hgone]%elem_of_targets_removeAll; [|done].
  destruct (Howns el x Hx) as (fn & Hfn & Hel & Hsub).
  destruct (Hgone fn Hfn). done.
Qed.

Lemma reachable_wf tg st : reachable tg st → wf st.
Proof.
  induction 1; [apply wf_new|by apply wf_add|by apply wf_remove|
                apply wf_removeAll].
Qed.

(** On a platform without listeners, every reachable state is well formed
    and the registry owns every listener. *)
Lemma reachable_owns st : reachable ∅ st → owns st.
Proof.
  induction 1 as [|el event h c st Hst IH|fn st Hst IH Hfn|st Hst IH].
  - apply owns_new_empty.
  - apply owns_add; [by eapply reachable_wf|done].
  - apply owns_remove; [by eapply reachable_wf|done|done].
  - apply owns_removeAll; [by eapply reachable_wf|done].
Qed.


Lemma not_fires_no_untracked_subscription st el event h :
  ¬ fires st el event h → ¬ untracked_subscription st el event h.
Proof.
  intros Hfires (capture & Hin & _). apply Hfires.
  unfold fires. rewrite elem_of_dispatchEvent. eauto.
Qed.


(** *** The registry invariant *)

Lemma registry_invariant_add st el event h useCapture :
  registry_invariant st →
  listenerOf event h useCapture ∉ listenersOf (targets st) el →
  registry_invariant (add el event h useCapture st).2.
Proof.
  intros (Hwf & Hactive & Hinj) Hnew.
  split_and!; [by apply wf_add| |].
  - intros fn. rewrite all_add by done.
    intros [Hin| ->%list_elem_of_singleton]%elem_of_app; unfold active; simpl;
      apply elem_of_addEventListener; [left; by apply Hactive|by right].
  - assert (Hold : ∀ a, a ∈ _all st →
              ¬ same_subscription a (add el event h useCapture st).1).
    { intros a Ha [Hel Hsub]. simpl in Hel, Hsub. apply Hnew.
      rewrite <- Hel. unfold subscription in Hsub at 2. simpl in Hsub.
      rewrite <- Hsub. by apply Hactive. }
    intros a b. rewrite all_add by done.
    intros [Ha| ->%list_elem_of_singleton]%elem_of_app
           [Hb| ->%list_elem_of_singleton]%elem_of_app Hsame; try done.
    + by apply Hinj.
    + by destruct (Hold a Ha).
    + destruct (Hold b Hb). by destruct Hsame.
Qed.

Lemma registry_invariant_remove st fn :
  registry_invariant st → fn ∈ _all st → registry_invariant (remove fn st).
Proof.
  intros (Hwf & Hactive & Hinj) Hfn.
  split_and!; [by apply wf_remove| |].
  - intros x [Hx Hne]%elem_of_set_delete. unfold active. simpl.
    apply elem_of_removeEventListener. split; [by apply Hactive|].
    intros [Hel Hsub]. apply Hne. f_equal. by apply Hinj.
  - intros a b [Ha _]%elem_of_set_delete [Hb _]%elem_of_set_delete.
    by apply Hinj.
Qed.

Lemma registry_invariant_removeAll st : registry_invariant (removeAll st).
Proof.
  split_and!; [apply wf_removeAll| |].
  - intros fn. rewrite all_removeAll. by intros ?%elem_of_nil.
  - intros a b. rewrite all_removeAll. by intros ?%elem_of_nil.
Qed.

Lemma reachable_distinct_invariant tg st :
  reachable_distinct tg st → registry_invariant st.
Proof.
  induction 1.
  - split_and!; [apply wf_new| |].
    + by intros fn ?%elem_of_nil.
    + by intros a b ?%elem_of_nil.
  - by apply registry_invariant_add.
  - by apply registry_invariant_remove.
  - apply registry_invariant_removeAll.
Qed.

(** C1, as amended. In every state reached from a new registry by [add]
    calls for subscriptions that are not active at the time of the call, by
    [remove] of tracked handles and by [removeAll]: every tracked
    unsubscribe action stands for a subscription that is still active, two
    different tracked actions stand for different subscriptions, and
    [remove] of a tracked action removes both its subscription and its own
    entry while every other entry stays tracked and active. *)
Theorem registry_no_stale_entry_distinct tg st :
  reachable_distinct tg st →
  no_stale_entry st ∧
  (∀ a b, a ∈ _all st → b ∈ _all st → same_subscription a b → a = b) ∧
  (∀ fn, fn ∈ _all st →
     ¬ active (remove fn st) fn ∧ (fn ∉ _all (remove fn st)) ∧
     no_stale_entry (remove fn st) ∧
     ∀ x, x ∈ _all st → x ≠ fn → x ∈ _all (remove fn st)).
Proof.
  intros Hreach.
  destruct (reachable_distinct_invariant tg st Hreach)
    as (Hwf & Hactive & Hinj).
  split_and!; [done|done|]. intros fn Hfn. split_and!.
  - unfold active. simpl. rewrite elem_of_removeEventListener.
    intros [_ Hne]. by apply Hne.
  - simpl. rewrite elem_of_set_delete. by intros [_ ?].
  - apply (registry_invariant_remove st fn); [done|done].
  - intros x Hx Hne. simpl. apply elem_of_set_delete. split; [done|].
    intros Hid. apply Hne. destruct Hwf as [Hnd _].
    by apply (tracked_id_inj (_all st)).
Qed.

End Registry.

(** ** The properties on the example data *)

Section Examples.

(** The detached element of the example is not mounted. *)
Lemma isMounted_iff_witness :
  isMounted ex_host (VNode ex_detached) = Ok false.
Proof.
  destruct (isMounted_iff ex_host (VNode ex_detached)) as (_ & _ & _ & H).
  assert (Hne : ex_detached ≠ document ex_host) by discriminate.
  destruct (H ex_detached eq_refl Hne (or_introl eq_refl)) as [_ Hfalse].
  exact (Hfalse ex_html eq_refl).
Defined.

(** Two measurements of the detached element give two objects. *)
Lemma getRect_detached_fresh_stub_witness :
  ∃ l1 σ1 l2 σ2,
    getRect ex_host (VNode ex_detached) module_heap = Ok (l1, σ1) ∧
    getRect ex_host VOther σ1 = Ok (l2, σ2) ∧
    l1 ≠ l2 ∧ σ2 !! l1 = σ2 !! l2.
Proof.
  destruct (getRect_detached_fresh_stub ex_host (VNode ex_detached) VOther
              module_heap eq_refl eq_refl eq_refl eq_refl eq_refl)
    as (l1 & σ1 & l2 & σ2 & H1 & H2 & _ & Hl2 & Hl1 & Hne & _).
  exists l1, σ1, l2, σ2. split_and!; [done|done|done|].
  by rewrite Hl1, Hl2.
Defined.

Lemma getPixelRatio_feature_witness : getPixelRatio ex_host = Num 2.
Proof.
  destruct (getPixelRatio_feature ex_host) as [_ H]. by apply H.
Defined.


Lemma preventDefault_iff_capability_witness :
  preventDefault nativeEventObject (NativeEvent true false 0)
  = Ok (NativeEvent true true 1).
Proof.
  destruct (preventDefault_iff_capability nativeEvent nativeEventObject
              (NativeEvent true false 0)) as (H & _).
  by apply (H nativePreventDefault).
Defined.

Lemma applyMethodToClasses_each_token_witness :
  addClasses DOMTokenList (Some (js "   ")) [js "c"] = Ok [js "c"].
Proof.
  destruct (applyMethodToClasses_each_token "add" DOMTokenList
              (Some (js "   ")) [js "c"]) as (_ & _ & _ & H & _).
  apply H. by repeat constructor.
Defined.

Lemma add_twice_two_handles_one_listener_witness :
  let r1 := add 1 "click" 7 None (new ∅) in
  let r2 := add 1 "click" 7 None r1.2 in
  r1.1 ≠ r2.1 ∧ length (_all r2.2) = 2 ∧
  listenersOf (targets r2.2) 1 = [Listener "click" 7 false].
Proof.
  intros r1 r2.
  destruct (add_twice_two_handles_one_listener (new ∅) 1 "click" 7 None
              (wf_new ∅)) as (Hne & _ & _ & Hlen & _).
  split_and!; [exact Hne|exact Hlen|reflexivity].
Defined.

Lemma remove_idempotent_on_tracked_set_witness :
  let r := add 1 "click" 7 None (new ∅) in
  _all (remove r.1 (remove r.1 r.2)) = _all (remove r.1 r.2) ∧
  _all (remove r.1 (new ∅)) = [].
Proof.
  intros r.
  destruct (remove_idempotent_on_tracked_set r.2 r.1) as (H1 & _).
  destruct (remove_idempotent_on_tracked_set (new ∅) r.1) as (_ & H2 & _).
  split; [exact H1|]. by apply H2.
Defined.


(** Two different subscriptions, then one of them removed. *)
Lemma registry_no_stale_entry_distinct_witness :
  let r1 := add 1 "click" 7 None (new ∅) in
  let r2 := add 1 "click" 7 (Some true) r1.2 in
  no_stale_entry (remove r1.1 r2.2) ∧ _all (remove r1.1 r2.2) = [r2.1].
Proof.
  intros r1 r2.
  assert (Hreach : reachable_distinct ∅ r2.2).
  { apply distinct_add; [apply distinct_add; [apply distinct_new|]|].
    - apply (bool_decide_unpack _). by vm_compute.
    - apply (bool_decide_unpack _). by vm_compute. }
  destruct (registry_no_stale_entry_distinct ∅ r2.2 Hreach) as (_ & _ & H).
  destruct (H r1.1) as (_ & _ & Hstale & _).
  - apply (bool_decide_unpack _). by vm_compute.
  - split; [exact Hstale|reflexivity].
Defined.

(** C1, as stated, fails: after two [add] calls with the same arguments and
    [remove] of the first handle, the second handle is still tracked but
    the one listener both stood for is gone; and calling an unsubscribe
    action by itself removes the listener and leaves the entry. *)
Lemma registry_stale_entry_counterexample :
  let r1 := add 1 "click" 7 None (new ∅) in
  let r2 := add 1 "click" 7 None r1.2 in
  (reachable ∅ (remove r1.1 r2.2) ∧ ¬ no_stale_entry (remove r1.1 r2.2)) ∧
  (r1.1 ∈ _all (call r1.1 r1.2) ∧ ¬ active (call r1.1 r1.2) r1.1).
Proof.
  intros r1 r2. split_and!.
  - apply reachable_remove; [repeat constructor|].
    apply (bool_decide_unpack _). by vm_compute.
  - intros Hstale.
    assert (Hin : r2.1 ∈ _all (remove r1.1 r2.2)).
    { apply (bool_decide_unpack _). by vm_compute. }
    generalize (Hstale r2.1 Hin). unfold active.
    apply (bool_decide_unpack _). by vm_compute.
  - apply (bool_decide_unpack _). by vm_compute.
  - unfold active. apply (bool_decide_unpack _). by vm_compute.
Qed.

End Examples.

(** * Further properties of the helpers *)

(** ** isMounted and getRect *)

Section MountedMore.

Lemma contains_unfold (root p : node) :
  contains root p
  = bool_decide (p = root) || contains_arg root (parentNode p).
Proof. by destruct p as [i k [q|]]. Qed.

(** X1. The root element is reported as not mounted: its parent is the
    document, which the root element does not contain. *)
Theorem isMounted_root_element_false (h : host) (root : node) :
  documentElement h = Some root →
  parentNode root = Some (document h) →
  parentNode (document h) = None →
  isMounted h (VNode root) = Ok false.
Proof. apply isMounted_documentElement. Qed.

Lemma isMounted_root_element_false_witness :
  isMounted ex_host (VNode ex_html) = Ok false.
Proof.
  by apply (isMounted_root_element_false ex_host ex_html).
Defined.

(** X2. Below the document, being mounted is passed along the parent link:
    a node whose parent is not the document is mounted exactly when that
    parent is the root element or is itself mounted. *)
Theorem isMounted_parent (h : host) (root c p : node) :
  documentElement h = Some root →
  c ≠ document h → parentNode c = Some p → p ≠ document h →
  (isMounted h (VNode c) = Ok true ↔
   p = root ∨ isMounted h (VNode p) = Ok true).
Proof.
  intros Hroot Hc Hp Hpdoc. simpl.
  rewrite !decide_False by done. rewrite Hroot, Hp. simpl.
  rewrite contains_unfold.
  destruct (contains_arg root (parentNode p));
    rewrite ?orb_true_r, ?orb_false_r.
  - split; [by right|done].
  - split.
    + intros [= Heq%bool_decide_eq_true]. by left.
    + intros [->|[=]]. by rewrite bool_decide_eq_true_2.
Qed.

Lemma isMounted_parent_witness :
  isMounted ex_host (VNode ex_text) = Ok true.
Proof.
  apply (isMounted_parent ex_host ex_html ex_text ex_div);
    [reflexivity|discriminate|reflexivity|discriminate|].
  right. reflexivity.
Defined.

Lemma isMounted_Throw (h : host) (v : value) (e : error) :
  isMounted h v = Throw e ↔
  e = TypeError ∧ documentElement h = None ∧
  ∃ n, v = VNode n ∧ n ≠ document h.
Proof.
  destruct v as [n|r|]; simpl.
  - destruct (decide (n = document h)) as [Hn|Hn].
    + split; [done|]. by intros (_ & _ & n' & [= <-] & ?).
    + destruct (documentElement h) as [root|].
      * split; [done|]. by intros (_ & [=] & _).
      * split; [intros [= <-]; eauto|]. by intros (-> & _).
  - split; [done|]. by intros (_ & _ & n & [=] & _).
  - split; [done|]. by intros (_ & _ & n & [=] & _).
Qed.

(** X3. [isMounted] throws exactly when the document has no root element
    and the argument is a node other than the document; what it throws is
    a [TypeError]. *)
Theorem isMounted_throws_iff (h : host) (v : value) (e : error) :
  isMounted h v = Throw e ↔
  e = TypeError ∧ documentElement h = None ∧
  ∃ n, v = VNode n ∧ n ≠ document h.
Proof. apply isMounted_Throw. Qed.

(** X4. A range is always measured, whatever the document looks like, and
    so is a mounted element: [getRect] returns a new object holding the
    six fields of the platform's rectangle and leaves the objects that were
    there as they were. *)
Theorem getRect_measures (h : host) (σ : gmap nat rect) :
  (∀ r, ∃ l σ', getRect h (VRange r) σ = Ok (l, σ') ∧ (l ∉ dom σ) ∧
                σ' !! l = Some (rangeRect h r) ∧
                ∀ l', l' ∈ dom σ → σ' !! l' = σ !! l') ∧
  (∀ n, isMounted h (VNode n) = Ok true → nodeType n = ElementNode →
        ∃ l σ', getRect h (VNode n) σ = Ok (l, σ') ∧ (l ∉ dom σ) ∧
                σ' !! l = Some (elementRect h n) ∧
                ∀ l', l' ∈ dom σ → σ' !! l' = σ !! l').
Proof.
  split.
  - intros r. unfold getRect. simpl.
    destruct (rangeRect h r) as [t ri b le w he] eqn:Hr. simpl.
    eexists _, _. split_and!; [reflexivity|apply is_fresh| |].
    + apply lookup_insert_eq.
    + intros l' Hl'. by apply alloc_lookup_old.
  - intros n Hm Hty. unfold getRect. cbn [isRange]. rewrite Hm.
    cbn [mbind result_bind call_getBoundingClientRect]. rewrite Hty.
    destruct (elementRect h n) as [t ri b le w he] eqn:Hr. simpl.
    eexists _, _. split_and!; [reflexivity|apply is_fresh| |].
    + apply lookup_insert_eq.
    + intros l' Hl'. by apply alloc_lookup_old.
Qed.

Lemma getRect_measures_witness :
  ∃ l σ', getRect ex_host (VNode ex_div) module_heap = Ok (l, σ') ∧
          σ' !! l
          = Some (Rect (Num 8) (Num 208) (Num 28) (Num 8) (Num 200) (Num 20)).
Proof.
  destruct (getRect_measures ex_host module_heap) as [_ H].
  destruct (H ex_div eq_refl eq_refl) as (l & σ' & Hget & _ & Hl & _).
  by exists l, σ'.
Defined.

(** X5. While the module's stub object exists, [getRect] throws exactly on
    a node that is not the document when the document has no root element,
    and on a mounted node that is not an element, such as the document
    itself or a text node of the page: these have no
    [getBoundingClientRect]. What it throws is a [TypeError]. *)
Theorem getRect_throws_iff (h : host) (v : value) (σ : gmap nat rect)
    (e : error) :
  is_Some (σ !! rectStub) →
  (getRect h v σ = Throw e ↔
   e = TypeError ∧
   ∃ n, v = VNode n ∧
        ((n ≠ document h ∧ documentElement h = None) ∨
         (isMounted h v = Ok true ∧ nodeType n ≠ ElementNode))).
Proof.
  intros [stub Hstub]. unfold getRect. destruct v as [n|r|]; cbn [isRange].
  - destruct (isMounted h (VNode n)) as [[|]|e'] eqn:Hm;
      cbn [mbind result_bind call_getBoundingClientRect].
    + assert (Hnothrow : ¬ (n ≠ document h ∧ documentElement h = None)).
      { intros [Hn Hroot].
        assert (Hthrow : isMounted h (VNode n) = Throw TypeError).
        { apply isMounted_Throw. eauto. }
        by rewrite Hm in Hthrow. }
      destruct (decide (nodeType n = ElementNode)) as [Hty|Hty].
      * rewrite Hty. simpl. split; [done|].
        intros (_ & n' & [= <-] & [?|[_ Hne]]); done.
      * assert (Hcall : (match nodeType n with
                         | ElementNode => Ok (elementRect h n)
                         | _ => Throw TypeError
                         end) = Throw TypeError)
          by (by destruct (nodeType n)).
        rewrite Hcall. simpl. split.
        -- intros [= <-]. split; [done|]. exists n. split; [done|].
           by right.
        -- by intros (-> & _).
    + rewrite Hstub. split; [done|].
      intros (_ & n' & [= <-] & [[Hn Hroot]|[[=] _]]).
      assert (Hthrow : isMounted h (VNode n) = Throw TypeError).
      { apply isMounted_Throw. eauto. }
      by rewrite Hm in Hthrow.
    + apply isMounted_Throw in Hm as (-> & Hroot & n' & [= <-] & Hn).
      split.
      * intros [= <-]. split; [done|]. exists n. split; [done|]. by left.
      * by intros (-> & _).
  - simpl. split; [done|]. by intros (_ & n & [=] & _).
  - simpl. rewrite Hstub. split; [done|]. by intros (_ & n & [=] & _).
Qed.

Lemma getRect_throws_iff_witness :
  getRect ex_host (VNode ex_document) module_heap = Throw TypeError ∧
  getRect ex_host (VNode ex_text) module_heap = Throw TypeError.
Proof.
  assert (Hstub : is_Some (module_heap !! rectStub)) by (by eexists).
  split.
  - apply (getRect_throws_iff ex_host (VNode ex_document) module_heap
             TypeError Hstub).
    split; [done|]. exists ex_document. split; [done|]. right. by split.
  - apply (getRect_throws_iff ex_host (VNode ex_text) module_heap
             TypeError Hstub).
    split; [done|]. exists ex_text. split; [done|]. right. by split.
Defined.

(** X6. The stub object is never handed out and never changed: after any
    call of [getRect] that returns, the returned object is not the stub,
    and the stub still holds what it held. *)
Theorem getRect_keeps_stub (h : host) (v : value) (σ σ' : gmap nat rect)
    (l : nat) (stub : rect) :
  σ !! rectStub = Some stub →
  getRect h v σ = Ok (l, σ') →
  l ≠ rectStub ∧ σ' !! rectStub = Some stub.
Proof.
  intros Hstub Hget.
  destruct (getRect_preserves h v σ σ' l Hget) as [Hfresh Hold].
  assert (Hdom : rectStub ∈ dom σ) by (apply elem_of_dom; eauto).
  split.
  - intros ->. done.
  - by rewrite Hold.
Qed.

Lemma getRect_keeps_stub_witness :
  ∃ l σ', getRect ex_host (VNode ex_div) module_heap = Ok (l, σ') ∧
          l ≠ rectStub ∧ σ' !! rectStub = Some rectStub_init.
Proof.
  assert (Hget : ∃ p, getRect ex_host (VNode ex_div) module_heap = Ok p)
    by (eexists; reflexivity).
  destruct Hget as [[l σ'] Hget]. exists l, σ'. split; [exact Hget|].
  exact (getRect_keeps_stub ex_host (VNode ex_div) module_heap σ' l
           rectStub_init eq_refl Hget).
Defined.

(** X7. The scroll accessors throw exactly when there is no body element
    and the root element is missing or reports a falsy offset; without a
    body element, a returned offset is therefore truthy. *)
Theorem getDocumentScroll_throws_iff (h : host) :
  (∀ e, getDocumentScrollTop h = Throw e ↔
        e = TypeError ∧ body h = None ∧
        (documentElement h = None ∨
         ∃ root, documentElement h = Some root ∧
                 number_truthy (scrollTop h root) = false)) ∧
  (∀ e, getDocumentScrollLeft h = Throw e ↔
        e = TypeError ∧ body h = None ∧
        (documentElement h = None ∨
         ∃ root, documentElement h = Some root ∧
                 number_truthy (scrollLeft h root) = false)) ∧
  (∀ x, body h = None → getDocumentScrollTop h = Ok x →
        number_truthy x = true) ∧
  (∀ x, body h = None → getDocumentScrollLeft h = Ok x →
        number_truthy x = true).
Proof.
  unfold getDocumentScrollTop, getDocumentScrollLeft.
  destruct (documentElement h) as [root|], (body h) as [b|].
  all: try destruct (number_truthy (scrollTop h root)) eqn:Ht.
  all: try destruct (number_truthy (scrollLeft h root)) eqn:Hl.
  all: split_and!.
  all: try (intros x Hb [= <-]; done).
  all: intros e; split;
    [intros [= <-]; split_and!; eauto
    |intros (-> & Hb & Hd); try done;
     destruct Hd as [Hd|(r & Hr & Hf)]; try done;
     injection Hr as <-; congruence].
Qed.

Lemma getDocumentScroll_throws_iff_witness :
  getDocumentScrollTop ex_host_no_body = Throw TypeError.
Proof.
  destruct (getDocumentScroll_throws_iff ex_host_no_body) as (H & _).
  apply H. split_and!; [done|done|]. right. by exists ex_html.
Defined.

End MountedMore.

(** ** Class specs *)

Lemma Tokens_unique (s : jsstring) (ts ts' : list jsstring) :
  Tokens s ts → Tokens s ts' → ts = ts'.
Proof. apply (@Tokens_functional unit). Qed.

Section ClassListMore.

Context {S : Type}.


(** What [applyMethodToClasses] does is determined by the tokens. *)
Lemma applyMethodToClasses_Tokens (method : string)
    (classList : classListHandle S) (spec : jsstring)
    (ts : list jsstring) (s : S) :
  Tokens spec ts →
  applyMethodToClasses method classList (Some spec) s
  = forEach (λ t, call_method classList method [t]) ts s.
Proof.
  intros Hts. unfold applyMethodToClasses. simpl.
  by rewrite (Tokens_unique _ _ _ (split_whitespace_Tokens spec) Hts).
Qed.


(** X8. Only the tokens of a class spec matter: two specs with the same
    tokens in the same order, however the white space around and between
    them differs, have the same effect on any handle, for any method. *)
Theorem applyMethodToClasses_whitespace_insensitive (method : string)
    (classList : classListHandle S) (spec1 spec2 : jsstring)
    (ts : list jsstring) (s : S) :
  Tokens spec1 ts → Tokens spec2 ts →
  applyMethodToClasses method classList (Some spec1) s
  = applyMethodToClasses method classList (Some spec2) s.
Proof.
  intros H1 H2.
  by rewrite (applyMethodToClasses_Tokens _ _ _ ts s H1),
             (applyMethodToClasses_Tokens _ _ _ ts s H2).
Qed.


(** X10. A handle without the requested method makes the helper throw a
    [TypeError] as soon as the spec has a token; a spec without tokens is
    still a no-op. *)
Theorem applyMethodToClasses_missing_method (method : string)
    (classList : classListHandle S) (classes : option jsstring)
    (ts : list jsstring) (s : S) :
  classList method = None →
  Tokens (default [] classes) ts →
  applyMethodToClasses method classList classes s
  = match ts with
    | [] => Ok s
    | _ :: _ => Throw TypeError
    end.
Proof.
  intros Hnone Hts. unfold applyMethodToClasses.
  rewrite (Tokens_unique _ _ _ (split_whitespace_Tokens _) Hts).
  destruct ts as [|t ts]; [done|]. simpl.
  unfold call_method. by rewrite Hnone.
Qed.

End ClassListMore.

Section TokenList.

Lemma DOMTokenList_remove_token (t : jsstring) (set : list jsstring) :
  t ≠ [] → Forall (λ c, isWhiteSpace c = false) t →
  call_method DOMTokenList "remove" [t] set
  = Ok (filter (λ x, x ≠ t) set).
Proof.
  intros Hne Hws. unfold call_method. simpl.
  pose proof (validateTokens_token t Hne Hws) as Hvalid.
  simpl in Hvalid. by rewrite Hvalid.
Qed.

Lemma forEach_DOMTokenList_add (ts set : list jsstring) :
  Forall (λ t, t ≠ [] ∧ Forall (λ c, isWhiteSpace c = false) t) ts →
  forEach (λ t, call_method DOMTokenList "add" [t]) ts set
  = Ok (foldl (λ acc t, if decide (t ∈ acc) then acc else acc ++ [t])
              set ts).
Proof.
  intros Hwf. revert set.
  induction Hwf as [|t ts [Hne Hws] _ IH]; intros set; cbn [forEach foldl].
  - done.
  - rewrite (DOMTokenList_add_token t set Hne Hws).
    cbn [mbind result_bind]. apply IH.
Qed.

Lemma forEach_DOMTokenList_remove (ts set : list jsstring) :
  Forall (λ t, t ≠ [] ∧ Forall (λ c, isWhiteSpace c = false) t) ts →
  forEach (λ t, call_method DOMTokenList "remove" [t]) ts set
  = Ok (filter (λ x, x ∉ ts) set).
Proof.
  intros Hwf. revert set.
  induction Hwf as [|t ts [Hne Hws] _ IH]; intros set; cbn [forEach].
  - f_equal. induction set as [|x set IHset]; [done|].
    rewrite filter_cons_True by apply not_elem_of_nil. by f_equal.
  - rewrite (DOMTokenList_remove_token t set Hne Hws).
    cbn [mbind result_bind]. rewrite IH. f_equal.
    rewrite list_filter_filter. apply list_filter_iff.
    intros x. rewrite not_elem_of_cons. tauto.
Qed.

Lemma foldl_add_tokens (ts set : list jsstring) :
  ∃ new, foldl (λ acc t, if decide (t ∈ acc) then acc else acc ++ [t])
               set ts = set ++ new ∧
         ∀ x, x ∈ new → x ∈ ts.
Proof.
  revert set. induction ts as [|t ts IH]; intros set; simpl.
  - exists []. split; [by rewrite app_nil_r|]. by intros x ?%elem_of_nil.
  - destruct (decide (t ∈ set)) as [Hin|Hnin].
    + destruct (IH set) as (new & -> & Hnew).
      exists new. split; [done|]. intros x Hx. right. by apply Hnew.
    + destruct (IH (set ++ [t])) as (new & -> & Hnew).
      exists (t :: new). split; [by rewrite <- app_assoc|].
      intros x [->|Hx]%elem_of_cons; [left|right; by apply Hnew].
Qed.

Lemma filter_all (P : jsstring → Prop) `{∀ x, Decision (P x)}
    (l : list jsstring) :
  (∀ x, x ∈ l → P x) → filter P l = l.
Proof.
  induction l as [|x l IH]; intros Hall; [done|].
  rewrite filter_cons_True by (apply Hall; left). f_equal.
  apply IH. intros y Hy. apply Hall. by right.
Qed.

Lemma filter_none (P : jsstring → Prop) `{∀ x, Decision (P x)}
    (l : list jsstring) :
  (∀ x, x ∈ l → ¬ P x) → filter P l = [].
Proof.
  induction l as [|x l IH]; intros Hall; [done|].
  rewrite filter_cons_False by (apply Hall; left).
  apply IH. intros y Hy. apply Hall. by right.
Qed.

(** X11. On the platform's token list [removeClasses] never throws, and
    it leaves exactly the tokens of the list that are not tokens of the
    spec, in their order. *)
Theorem removeClasses_DOMTokenList (classes : option jsstring)
    (set : list jsstring) :
  ∃ ts, Tokens (default [] classes) ts ∧
        removeClasses DOMTokenList classes set
        = Ok (filter (λ x, x ∉ ts) set).
Proof.
  pose proof (split_whitespace_Tokens (default [] classes)) as Htok.
  eexists. split; [exact Htok|].
  unfold removeClasses, applyMethodToClasses.
  apply forEach_DOMTokenList_remove. by eapply Tokens_wellformed.
Qed.

(** X12. On the platform's token list [addClasses] never throws; the list
    it leaves starts with the list as it was, and a token is in it exactly
    when it was there before or is a token of the spec. *)
Theorem addClasses_DOMTokenList_members (classes : option jsstring)
    (set : list jsstring) :
  ∃ ts new, Tokens (default [] classes) ts ∧
            addClasses DOMTokenList classes set = Ok (set ++ new) ∧
            ∀ t, t ∈ set ++ new ↔ t ∈ set ∨ t ∈ ts.
Proof.
  destruct (addClasses_DOMTokenList classes set)
    as (ts & set' & Htok & Hrun & Hmem).
  pose proof (Tokens_wellformed _ _ Htok) as Hwf.
  destruct (foldl_add_tokens ts set) as (new & Hfold & _).
  assert (Hset' : set' = set ++ new).
  { unfold addClasses, applyMethodToClasses in Hrun.
    rewrite (Tokens_unique _ _ _ (split_whitespace_Tokens _) Htok)
      in Hrun.
    rewrite (forEach_DOMTokenList_add ts set Hwf), Hfold in Hrun.
    by injection Hrun as <-. }
  subst set'. by exists ts, new.
Qed.

(** X13. Round trip on the platform's token list: when no token of the
    spec is in the list, [addClasses] followed by [removeClasses] with the
    same spec gives the list back as it was; in general it gives the list
    without the tokens of the spec. *)
Theorem add_remove_classes_roundtrip (classes : option jsstring)
    (set : list jsstring) :
  ∃ ts set',
    Tokens (default [] classes) ts ∧
    addClasses DOMTokenList classes set = Ok set' ∧
    removeClasses DOMTokenList classes set'
    = Ok (filter (λ x, x ∉ ts) set) ∧
    ((∀ t, t ∈ ts → t ∉ set) →
     removeClasses DOMTokenList classes set' = Ok set).
Proof.
  pose proof (split_whitespace_Tokens (default [] classes)) as Htok.
  pose proof (Tokens_wellformed _ _ Htok) as Hwf.
  destruct (foldl_add_tokens
              (filter (λ className : jsstring, className ≠ [])
                      (split_whitespace (default [] classes))) set)
    as (new & Hfold & Hnew).
  eexists _, (set ++ new).
  assert (Hremove : removeClasses DOMTokenList classes (set ++ new)
                    = Ok (filter (λ x, x ∉ filter
                            (λ className : jsstring, className ≠ [])
                            (split_whitespace (default [] classes))) set)).
  { unfold removeClasses, applyMethodToClasses.
    rewrite (forEach_DOMTokenList_remove _ _ Hwf). f_equal.
    rewrite filter_app, (filter_none _ new), app_nil_r; [done|].
    intros x Hx Hnot. by apply Hnot, Hnew. }
  split_and!.
  - exact Htok.
  - unfold addClasses, applyMethodToClasses.
    by rewrite (forEach_DOMTokenList_add _ _ Hwf), Hfold.
  - exact Hremove.
  - intros Hdisjoint. rewrite Hremove. f_equal. apply filter_all.
    intros x Hx Hin. by apply (Hdisjoint x).
Qed.

End TokenList.

Section ClassListExamples.

Lemma applyMethodToClasses_whitespace_insensitive_witness :
  addClasses recorder (Some (js "a  b")) []
  = addClasses recorder (Some (js " a b ")) [].
Proof.
  apply (applyMethodToClasses_whitespace_insensitive "add" recorder
           (js "a  b") (js " a b ") [js "a"; js "b"] []).
  - exact (split_whitespace_Tokens (js "a  b")).
  - exact (split_whitespace_Tokens (js " a b ")).
Defined.


Lemma applyMethodToClasses_missing_method_witness :
  addClasses ex_noMethods (Some (js "a")) [] = Throw TypeError ∧
  addClasses ex_noMethods (Some (js " ")) [] = Ok [].
Proof.
  split.
  - apply (applyMethodToClasses_missing_method "add" ex_noMethods
             (Some (js "a")) [js "a"] [] eq_refl).
    exact (split_whitespace_Tokens (js "a")).
  - apply (applyMethodToClasses_missing_method "add" ex_noMethods
             (Some (js " ")) [] [] eq_refl).
    exact (split_whitespace_Tokens (js " ")).
Defined.

Lemma add_remove_classes_roundtrip_witness :
  ∃ set', addClasses DOMTokenList (Some (js "a b")) [js "c"] = Ok set' ∧
          removeClasses DOMTokenList (Some (js "a b")) set' = Ok [js "c"].
Proof.
  destruct (add_remove_classes_roundtrip (Some (js "a b")) [js "c"])
    as (ts & set' & Htok & Hadd & _ & Hback).
  exists set'. split; [exact Hadd|]. apply Hback.
  rewrite (Tokens_unique _ _ _ Htok (split_whitespace_Tokens (js "a b"))).
  intros t Ht. apply (bool_decide_unpack _).
  revert t Ht. apply Forall_forall. by repeat constructor.
Defined.

End ClassListExamples.

(** ** Root style properties *)

Section RootStyle.

Context {S : Type}.
Variable setProperty : node → string → string → S → result S.
Variable getPropertyValue : node → string → S → string.

(** What the platform promises about a style declaration: a property that
    has been set reads back as set, and the other properties of that
    element are not affected. *)
Hypothesis setProperty_spec : ∀ el key value s,
  ∃ s', setProperty el key value s = Ok s' ∧
        getPropertyValue el key s' = value ∧
        ∀ key', key' ≠ key →
                getPropertyValue el key' s' = getPropertyValue el key' s.

Lemma forEach_setProperty (root : node) (props : list (string * string))
    (s : S) :
  NoDup props.*1 →
  ∃ s', forEach (λ '(key, value), setProperty root key value) props s
        = Ok s' ∧
        (∀ key value, (key, value) ∈ props →
                      getPropertyValue root key s' = value) ∧
        (∀ key, key ∉ props.*1 →
                getPropertyValue root key s' = getPropertyValue root key s).
Proof.
  revert s. induction props as [|[k v] props IH]; intros s Hnd.
  - exists s. split_and!; [done| |done]. by intros key value ?%elem_of_nil.
  - rewrite fmap_cons, NoDup_cons in Hnd. destruct Hnd as [Hk Hnd].
    cbn [forEach].
    destruct (setProperty_spec root k v s) as (s1 & -> & Hget & Hother).
    cbn [mbind result_bind].
    destruct (IH s1 Hnd) as (s' & Hrun & Hset & Hrest).
    exists s'. split_and!; [exact Hrun| |].
    + intros key value [[= -> ->]|Hin]%elem_of_cons.
      * by rewrite (Hrest k Hk).
      * by apply Hset.
    + intros key [Hne Hnin]%not_elem_of_cons.
      rewrite (Hrest key Hnin). by apply Hother.
Qed.

(** X14. With a root element, [setRootStyleProperties] sets every property
    of the mapping on the root element's style: afterwards each key reads
    back as its value and every property that is not a key of the mapping
    reads as before; nothing is thrown. The keys of an object are pairwise
    different. *)
Theorem setRootStyleProperties_sets (h : host) (root : node)
    (props : list (string * string)) (s : S) :
  documentElement h = Some root →
  NoDup props.*1 →
  ∃ s', setRootStyleProperties h setProperty (Some props) s = Ok s' ∧
        (∀ key value, (key, value) ∈ props →
                      getPropertyValue root key s' = value) ∧
        (∀ key, key ∉ props.*1 →
                getPropertyValue root key s' = getPropertyValue root key s).
Proof.
  intros Hroot Hnd. unfold setRootStyleProperties. rewrite Hroot. simpl.
  by apply forEach_setProperty.
Qed.

End RootStyle.

Section RootStyleEdge.

Context {S : Type}.

(** X15. Without a root element [setRootStyleProperties] throws a
    [TypeError] before it looks at the mapping, even when the mapping is
    empty or left out; with a root element, an empty or left-out mapping
    leaves the style untouched and no [setProperty] call is made. *)
Theorem setRootStyleProperties_edge (h : host)
    (setProperty : node → string → string → S → result S)
    (properties : option (list (string * string))) (s : S) :
  (documentElement h = None →
   setRootStyleProperties h setProperty properties s = Throw TypeError) ∧
  (is_Some (documentElement h) →
   setRootStyleProperties h setProperty None s = Ok s ∧
   setRootStyleProperties h setProperty (Some []) s = Ok s).
Proof.
  unfold setRootStyleProperties. split.
  - by intros ->.
  - by intros [root ->].
Qed.

End RootStyleEdge.

Section RootStyleExamples.

Lemma inlineStyle_setProperty_spec (el : node) (key value : string)
    (style : gmap string string) :
  ∃ style', inlineStyle_setProperty el key value style = Ok style' ∧
            inlineStyle_getPropertyValue key style' = value ∧
            ∀ key', key' ≠ key →
                    inlineStyle_getPropertyValue key' style'
                    = inlineStyle_getPropertyValue key' style.
Proof.
  unfold inlineStyle_setProperty, inlineStyle_getPropertyValue.
  eexists. split; [reflexivity|].
  destruct (decide (value = "")) as [->|Hne].
  - split; [by rewrite lookup_delete_eq|].
    intros key' Hkey. by rewrite lookup_delete_ne.
  - split; [by rewrite lookup_insert_eq|].
    intros key' Hkey. by rewrite lookup_insert_ne.
Qed.

Lemma setRootStyleProperties_sets_witness :
  ∃ style',
    setRootStyleProperties ex_host inlineStyle_setProperty
      (Some [("--x", "1px"); ("--y", "2px")]) {[ "--z" := "3px" ]}
    = Ok style' ∧
    inlineStyle_getPropertyValue "--x" style' = "1px" ∧
    inlineStyle_getPropertyValue "--z" style' = "3px".
Proof.
  destruct (setRootStyleProperties_sets inlineStyle_setProperty
              (λ _, inlineStyle_getPropertyValue)
              inlineStyle_setProperty_spec ex_host ex_html
              [("--x", "1px"); ("--y", "2px")] {[ "--z" := "3px" ]}
              eq_refl)
    as (style' & Hrun & Hset & Hrest).
  - apply (bool_decide_unpack _). by vm_compute.
  - exists style'. split_and!; [exact Hrun| |].
    + apply Hset. left.
    + rewrite Hrest; [reflexivity|].
      apply (bool_decide_unpack _). by vm_compute.
Defined.

Lemma setRootStyleProperties_edge_witness :
  setRootStyleProperties ex_host_no_root inlineStyle_setProperty
    (Some []) ∅ = Throw TypeError ∧
  setRootStyleProperties ex_host inlineStyle_setProperty None ∅ = Ok ∅.
Proof.
  split.
  - by apply (setRootStyleProperties_edge ex_host_no_root
                inlineStyle_setProperty (Some []) ∅).
  - apply (setRootStyleProperties_edge ex_host inlineStyle_setProperty
             None ∅).
    by eexists.
Defined.

End RootStyleExamples.

(** ** The listener registry, continued *)

Section RegistryMore.

Implicit Types (st : state) (fn : dispatchFn) (el : element).

Lemma calls_forEach_remove (l : list dispatchFn) st :
  NoDup (fn_id <$> l) → (∀ fn, fn ∈ l → fn ∈ _all st) →
  calls (foldl (λ st fn, if set_has fn (_all st) then remove fn st else st)
               st l)
  = calls st ++ (detachCall <$> l).
Proof.
  revert st. induction l as [|fn l IH]; intros st Hnd Hsub; simpl.
  - by rewrite app_nil_r.
  - rewrite fmap_cons, NoDup_cons in Hnd. destruct Hnd as [Hfn Hnd].
    rewrite set_has_elem_of by (apply Hsub; left).
    rewrite IH; [|done|].
    + simpl. by rewrite <- app_assoc.
    + intros fn' Hin. simpl. apply elem_of_set_delete. split.
      * apply Hsub. by right.
      * intros Heq. apply Hfn. rewrite <- Heq. by apply list_elem_of_fmap_2.
Qed.

(** X16. In a well-formed state [removeAll] runs every tracked unsubscribe
    action exactly once, in the order in which the actions were added: the
    platform receives one [removeEventListener] call per entry and no
    other call. *)
Theorem removeAll_calls st :
  wf st →
  calls (removeAll st) = calls st ++ (detachCall <$> _all st).
Proof. intros [Hnd _]. by apply calls_forEach_remove. Qed.

Lemma removeAll_calls_witness :
  calls (removeAll (addAll ex_regs (new ∅)))
  = calls (addAll ex_regs (new ∅))
    ++ [RemoveEventListener 1 "click" 7 None;
        RemoveEventListener 1 "click" 7 (Some false);
        RemoveEventListener 2 "keydown" 8 (Some true)].
Proof.
  apply (removeAll_calls (addAll ex_regs (new ∅))).
  apply wf_addAll, wf_new.
Defined.

(** X17. A registry made on a platform without listeners tracks every
    listener there is: in every state it reaches, however often the same
    subscription was added, each listener of each target is the
    subscription of a tracked action, and the tracked actions are distinct
    function objects. *)
Theorem registry_tracks_every_listener st :
  reachable ∅ st → wf st ∧ owns st.
Proof.
  intros Hreach. split; [by eapply reachable_wf|by apply reachable_owns].
Qed.

Lemma registry_tracks_every_listener_witness :
  owns (remove (add 1 "click" 7 None (new ∅)).1
               (addAll ex_regs (add 1 "click" 7 None (new ∅)).2)).
Proof.
  apply registry_tracks_every_listener.
  apply reachable_remove.
  - repeat (apply (reachable_add ∅)). apply reachable_new.
  - apply (bool_decide_unpack _). by vm_compute.
Defined.

(** X18. No listener leaks: for a registry made on a platform without
    listeners, [removeAll] leaves no listener on any target, so a later
    dispatch runs no handler at all. *)
Theorem removeAll_cleans_platform st el event :
  reachable ∅ st →
  listenersOf (targets (removeAll st)) el = [] ∧
  dispatchEvent (targets (removeAll st)) el event = [].
Proof.
  intros Hreach.
  assert (Hnone : listenersOf (targets (removeAll st)) el = []).
  { apply elem_of_nil_inv. intros x Hx.
    assert (Hwf : wf st) by (by eapply reachable_wf).
    destruct (owns_removeAll st Hwf (reachable_owns st Hreach) el x Hx)
      as (fn & Hfn & _).
    rewrite all_removeAll in Hfn. by apply elem_of_nil in Hfn. }
  split; [exact Hnone|]. unfold dispatchEvent. by rewrite Hnone.
Qed.

Lemma removeAll_cleans_platform_witness :
  dispatchEvent (targets (removeAll (addAll ex_regs (new ∅)))) 1 "click"
  = [].
Proof.
  apply removeAll_cleans_platform.
  repeat (apply (reachable_add ∅)). apply reachable_new.
Defined.

(** X19. [removeAll] is idempotent: a second call in a row changes nothing
    and makes no platform call. *)
Theorem removeAll_idempotent st : removeAll (removeAll st) = removeAll st.
Proof. unfold removeAll at 1. by rewrite all_removeAll. Qed.

Lemma filter_ne_absent (l : list listener) (x : listener) :
  x ∉ l → filter (λ y, y ≠ x) l = l.
Proof.
  induction l as [|y l IH]; [done|].
  intros [Hne Hnin]%not_elem_of_cons.
  rewrite filter_cons_True by done. f_equal. by apply IH.
Qed.

(** X20. What [add] followed by [remove] of the returned handle does to
    the platform: the listener lists of all other targets are as before,
    and the target's list is the old list without the subscription. So
    the pair is neutral when the subscription was new, and when the
    subscription was already there, made by whomever, it is gone
    afterwards. *)
Theorem add_remove_platform st el event h useCapture :
  let r := add el event h useCapture st in
  let st' := remove r.1 r.2 in
  (∀ el', listenersOf (targets st') el'
          = if decide (el' = el)
            then filter (λ x, x ≠ listenerOf event h useCapture)
                        (listenersOf (targets st) el)
            else listenersOf (targets st) el') ∧
  (listenerOf event h useCapture ∉ listenersOf (targets st) el →
   ∀ el', listenersOf (targets st') el' = listenersOf (targets st) el') ∧
  (listenerOf event h useCapture ∉ listenersOf (targets st') el).
Proof.
  intros r st'.
  assert (Hlists : ∀ el', listenersOf (targets st') el'
          = if decide (el' = el)
            then filter (λ x, x ≠ listenerOf event h useCapture)
                        (listenersOf (targets st) el)
            else listenersOf (targets st) el').
  { intros el'. unfold st', r. simpl.
    rewrite listenersOf_removeEventListener.
    destruct (decide (el' = el)) as [->|Hne].
    - rewrite listenersOf_addEventListener, decide_True by done.
      destruct (decide (_ ∈ _)) as [Hin|Hnin]; [done|].
      rewrite filter_app, filter_cons_False by (intros H; by apply H).
      by rewrite filter_nil, app_nil_r.
    - rewrite listenersOf_addEventListener. by rewrite decide_False. }
  split_and!.
  - exact Hlists.
  - intros Hnew el'. rewrite Hlists.
    destruct (decide (el' = el)) as [->|Hne]; [|done].
    by apply filter_ne_absent.
  - rewrite Hlists, decide_True by done.
    rewrite list_elem_of_filter. by intros [Hne _].
Qed.

Lemma add_remove_platform_witness :
  let st := (add 1 "click" 7 None (new ∅)).2 in
  let r := add 1 "keydown" 8 None st in
  listenersOf (targets (remove r.1 r.2)) 1 = listenersOf (targets st) 1 ∧
  listenersOf (targets (remove r.1 r.2)) 2 = listenersOf (targets st) 2.
Proof.
  intros st r.
  destruct (add_remove_platform st 1 "keydown" 8 None) as (_ & Hnew & _).
  assert (Hfresh : listenerOf "keydown" 8 None ∉ listenersOf (targets st) 1).
  { apply (bool_decide_unpack _). by vm_compute. }
  split; by apply Hnew.
Defined.

(** X21. Calling [remove] again with a handle that has been removed is not
    harmless: if the same subscription has been added again in between,
    the second [remove] detaches it, and the new handle stays in the
    tracked set with no listener behind it. *)
Theorem remove_again_detaches_new_subscription st el event h useCapture :
  wf st →
  let r1 := add el event h useCapture st in
  let st2 := remove r1.1 r1.2 in
  let r2 := add el event h useCapture st2 in
  let st4 := remove r1.1 r2.2 in
  active r2.2 r2.1 ∧
  _all st4 = _all st ++ [r2.1] ∧
  ¬ active st4 r2.1.
Proof.
  intros Hwf r1 st2 r2 st4.
  assert (Hwf1 : wf r1.2) by (by apply wf_add).
  assert (Hwf2 : wf st2) by (by apply wf_remove).
  assert (Hall2 : _all st2 = _all st).
  { unfold st2. simpl. rewrite set_add_fresh by (by apply wf_next_fresh).
    apply set_delete_last. simpl. by apply wf_next_fresh. }
  split_and!.
  - unfold active. simpl. apply elem_of_addEventListener. by right.
  - unfold st4.
    change (_all (remove r1.1 r2.2)) with (set_delete r1.1 (_all r2.2)).
    unfold r2. rewrite all_add by done. fold r2. rewrite Hall2.
    unfold set_delete. rewrite filter_app.
    fold (set_delete r1.1 (_all st)).
    rewrite set_delete_absent
      by (apply set_has_false; simpl; by apply wf_next_fresh).
    rewrite filter_cons_True; [done|]. simpl. lia.
  - unfold active, st4. simpl. rewrite elem_of_removeEventListener.
    intros [_ Hne]. by apply Hne.
Qed.

Lemma remove_again_detaches_new_subscription_witness :
  let r1 := add 1 "click" 7 None (new ∅) in
  let r2 := add 1 "click" 7 None (remove r1.1 r1.2) in
  _all (remove r1.1 r2.2) = [r2.1] ∧
  listenersOf (targets (remove r1.1 r2.2)) 1 = [].
Proof.
  intros r1 r2.
  destruct (remove_again_detaches_new_subscription (new ∅) 1 "click" 7 None
              (wf_new ∅)) as (_ & Hall & _).
  split; [exact Hall|reflexivity].
Defined.

End RegistryMore.

(** ** A handler subscribed under both capture flags *)

Section CaptureFlags.


End CaptureFlags.
